(** * JSON-to-spreadsheet reconciliation engine of [finalApplication.py]

    A shallow embedding of the second tab of the application ("Fill Excel
    from JSON"): the label normaliser ([norm], [canonical_field],
    [canonical_section]), the flattener ([flatten_json]), the column
    detector ([detect_sections]), the value resolver ([pick_value]) and the
    writer loop, followed by the properties established about them.

    Conventions of the embedding.
    - Python [str] is Rocq's [string], read as ASCII text: the character
      classes below ([is_space], [is_digit], [upper_char]) are Python's on
      the code points 0..127 and leave the remaining byte values
      uninterpreted (never white space, never a digit, fixed by [upper]).
    - A Python [dict] that is only looked up is a [gmap]; a [dict] whose
      iteration order is observed ([dict.items()]) is an association list in
      insertion order.
    - An exception ([IndexError], [KeyError]) is [None] in the [option]
      monad. *)

From Stdlib Require Import ZArith Ascii DecimalString.
From stdpp Require Import base option gmap strings list sorting.

(** ** Python string primitives *)
Module PyStr.

Definition code (c : ascii) : N := N_of_ascii c.

(** [str.isspace] on one character; also the class [\s] of [re]. *)
Definition is_space (c : ascii) : bool :=
  let n := code c in
  ((9 <=? n) && (n <=? 13) || (28 <=? n) && (n <=? 32))%N.

(** The class [\d] of [re]. *)
Definition is_digit (c : ascii) : bool :=
  let n := code c in ((48 <=? n) && (n <=? 57))%N.

Definition is_lower (c : ascii) : bool :=
  let n := code c in ((97 <=? n) && (n <=? 122))%N.

Definition upper_char (c : ascii) : ascii :=
  if is_lower c then ascii_of_N (code c - 32) else c.

(** [s.upper()] *)
Fixpoint upper (s : string) : string :=
  match s with
  | "" => ""
  | String c t => String (upper_char c) (upper t)
  end.

(** [s.startswith(p)] *)
Fixpoint startswith (s p : string) {struct p} : bool :=
  match p with
  | "" => true
  | String a p' =>
      match s with
      | "" => false
      | String b s' => bool_decide (a = b) && startswith s' p'
      end
  end.

(** [p in s] for strings: [p] occurs as a contiguous block of [s]. *)
Fixpoint contains (p s : string) : bool :=
  startswith s p ||
  match s with
  | "" => false
  | String _ t => contains p t
  end.

(** [s.replace(old, new)] for a non-empty [old]: occurrences are found
    left to right and do not overlap. [skip] counts the characters of the
    occurrence just replaced that are still to be dropped. *)
Fixpoint replace_go (old new : string) (skip : nat) (s : string) : string :=
  match s with
  | "" => ""
  | String c t =>
      match skip with
      | S k => replace_go old new k t
      | O =>
          if startswith s old
          then new +:+ replace_go old new (String.length old - 1) t
          else String c (replace_go old new 0 t)
      end
  end.

Definition replace (old new s : string) : string := replace_go old new 0 s.

Fixpoint lstrip (s : string) : string :=
  match s with
  | "" => ""
  | String c t => if is_space c then lstrip t else s
  end.

Fixpoint rstrip (s : string) : string :=
  match s with
  | "" => ""
  | String c t =>
      match rstrip t with
      | "" => if is_space c then "" else String c ""
      | r => String c r
      end
  end.

(** [s.strip()] *)
Definition strip (s : string) : string := rstrip (lstrip s).

(** Whether the next character ends a word (white space or the end). *)
Definition word_end (s : string) : bool :=
  match s with
  | "" => true
  | String d _ => is_space d
  end.

(** [s.split()]: the maximal blocks of non-space characters. *)
Fixpoint split (s : string) : list string :=
  match s with
  | "" => []
  | String c t =>
      if is_space c then split t
      else if word_end t then String c "" :: split t
      else match split t with
           | w :: ws => String c w :: ws
           | [] => [String c ""]
           end
  end.

(** [sep.join(ws)] *)
Definition join (sep : string) (ws : list string) : string :=
  String.concat sep ws.

(** Longest prefix of characters of a class, and what follows it. *)
Fixpoint take_while (f : ascii → bool) (s : string) : string :=
  match s with
  | "" => ""
  | String c t => if f c then String c (take_while f t) else ""
  end.

Fixpoint drop_while (f : ascii → bool) (s : string) : string :=
  match s with
  | "" => ""
  | String c t => if f c then drop_while f t else s
  end.

(** [s] without its prefix [p], when it starts with [p]. *)
Fixpoint strip_prefix (p s : string) {struct p} : option string :=
  match p with
  | "" => Some s
  | String a p' =>
      match s with
      | "" => None
      | String b s' => if bool_decide (a = b) then strip_prefix p' s' else None
      end
  end.

(** [str(z)] for an [int]. *)
Definition of_Z (z : Z) : string := NilZero.string_of_int (Z.to_int z).

End PyStr.

(** ** Values

    The scalars that reach the engine: the leaves of the extraction document
    (after [json.load]) and the cell values of the worksheet. A [float], a
    list leaf or a date cell differs from these only in the text [str]
    yields for it and is not modelled apart. *)
Inductive value :=
  | VNone
  | VBool (b : bool)
  | VInt (z : Z)
  | VStr (s : string).

Coercion VStr : string >-> value.

#[global] Instance value_eq_dec : EqDecision value.
Proof. solve_decision. Defined.

(** Truth value of [if v]. *)
Definition truthy (v : value) : bool :=
  match v with
  | VNone => false
  | VBool b => b
  | VInt z => negb (z =? 0)%Z
  | VStr s => negb (bool_decide (s = ""))
  end.

(** [str(v)] *)
Definition py_str (v : value) : string :=
  match v with
  | VNone => "None"
  | VBool true => "True"
  | VBool false => "False"
  | VInt z => PyStr.of_Z z
  | VStr s => s
  end.

(** Truth value of a string ([if s]). *)
Definition nonempty (s : string) : bool := negb (bool_decide (s = "")).

(** ** Normaliser *)

Definition ROW_SECTION : nat := 2.
Definition ROW_FIELDS : nat := 3.
Definition FIRST_DATA_ROW : nat := 4.

(** The new line character, ["\n"]. *)
Definition NL : string := String (ascii_of_N 10) "".

Definition norm (s : value) : string :=
  if truthy s
  then PyStr.upper
         (PyStr.join " "
            (PyStr.split
               (PyStr.replace "# " "#"
                  (PyStr.strip (PyStr.replace NL " " (py_str s))))))
  else "".

Definition FIELD_SYNONYMS : gmap string string :=
  list_to_map
    [ ("BDRMS", "BEDROOMS");
      ("BATH(S)", "BATHS");
      ("QUALITY", "QUALITY OF CONSTRUCTION");
      ("QUALITY OF CONST", "QUALITY OF CONSTRUCTION");
      ("PROPERTY ADDRESS", "PROPERTY ADDRESS");
      ("ADDRESS", "ADDRESS");
      ("LOT SIZE", "SITE");
      ("AREA", "SITE") ].

Definition FIELD_ONLY_SET : gset string :=
  list_to_set
    [ "OPINION OF SITE VALUE"; "TOTAL ESTIMATE OF COST-NEW"; "DEPRECIATION";
      "R.E. TAX YEAR"; "HOA FREQUENCY"; "POOL" ].

Definition SALES_HISTORY_COMP_FIELDS : gset string :=
  list_to_set
    [ "DATE OF PRIOR SALE/TRANSFER"; "PRICE OF PRIOR SALE/TRANSFER";
      "DATA SOURCE(S)"; "EFFECTIVE DATE OF DATA SOURCE(S)" ].

Definition canonical_field (s : value) : string :=
  let s := norm s in
  default s (FIELD_SYNONYMS !! s).

(** The tail [\s*(\d+)] of both patterns, matched at the start of [s]:
    the digits of group 1 and the number of characters matched. White space
    and digits are disjoint classes, so the greedy match is the only one. *)
Definition match_spaces_digits (s : string) : option (string * nat) :=
  let sp := PyStr.take_while PyStr.is_space s in
  let ds := PyStr.take_while PyStr.is_digit (PyStr.drop_while PyStr.is_space s) in
  if nonempty ds then Some (ds, String.length sp + String.length ds) else None.

(** [re.match(r"COMPARA?BE\s*(\d+)", s)]: group 1 of the match at the
    start of [s]. The optional [A] is tried first, then left out. *)
Definition match_comparabe (s : string) : option string :=
  s1 ← PyStr.strip_prefix "COMPAR" s;
  let tail (t : string) : option string :=
    t' ← PyStr.strip_prefix "BE" t; fst <$> match_spaces_digits t' in
  match PyStr.strip_prefix "A" s1 ≫= tail with
  | Some ds => Some ds
  | None => tail s1
  end.

(** A match of [COMPARABLE SALE #\s*(\d+)] at the start of [s]: group 1
    and the length of the match. *)
Definition match_comparable_sale (s : string) : option (string * nat) :=
  t ← PyStr.strip_prefix "COMPARABLE SALE #" s;
  '(ds, n) ← match_spaces_digits t;
  Some (ds, String.length "COMPARABLE SALE #" + n).

(** [re.sub(r"COMPARABLE SALE #\s*(\d+)", r"COMPARABLE SALE #\1", s)]:
    every match, found left to right, is replaced; [skip] counts the
    characters of the last match that are still to be passed over. *)
Fixpoint sub_comparable_sale_go (skip : nat) (s : string) : string :=
  match s with
  | "" => ""
  | String c t =>
      match skip with
      | S k => sub_comparable_sale_go k t
      | O =>
          match match_comparable_sale s with
          | Some (ds, n) =>
              "COMPARABLE SALE #" +:+ ds +:+ sub_comparable_sale_go (n - 1) t
          | None => String c (sub_comparable_sale_go 0 t)
          end
      end
  end.

Definition sub_comparable_sale (s : string) : string :=
  sub_comparable_sale_go 0 s.

(** The rules of [canonical_section], on the normalised label. *)
Definition section_rules (s : string) : string :=
  match match_comparabe s with
  | Some n => "COMPARABLE SALE #" +:+ n
  | None =>
      if PyStr.startswith s "COMPARABLE SALE #" then sub_comparable_sale s
      else if PyStr.contains "ONE-UNIT HOUSING TRENDS" s then "ONE_UNIT_HOUSING_TRENDS"
      else if PyStr.contains "ONE-UNIT HOUSING" s then "ONE_UNIT_HOUSING"
      else if PyStr.contains "RECONCILIATION" s then "RECONCILIATION"
      else if PyStr.contains "COST APPROACH" s then "COST_APPROACH"
      else if PyStr.contains "SALES" s && PyStr.contains "HISTORY" s then "SALES_HISTORY"
      else if bool_decide (s = "SUBJECT") then "SUBJECT"
      else s
  end.

Definition canonical_section (s : value) : string :=
  let s := norm s in
  section_rules s.

(** ** Flattener *)

(** The extraction document: a leaf or a [dict] with its items in insertion
    order (the keys of a Python [dict] are pairwise distinct). *)
#[warnings="-register-all"] Inductive json :=
  | JLeaf (v : value)
  | JDict (items : list (string * json)).

(** The innermost path segment with a non-empty canonical section:
    the loop [for p in reversed(raw_sections)] with its [break]. *)
Fixpoint first_section (ps : list string) : string :=
  match ps with
  | [] => ""
  | p :: ps' =>
      let sec := canonical_section p in
      if nonempty sec then sec else first_section ps'
  end.

Definition resolve_section (raw_sections : list string) : string :=
  first_section (reverse raw_sections).

(** The two guarded assignments made at a leaf. *)
Definition store_leaf (section_c field_c val : string)
    (flat : gmap string string) : gmap string string :=
  let flat :=
    if nonempty section_c && nonempty field_c
    then <[section_c +:+ "." +:+ field_c := val]> flat
    else flat in
  if bool_decide (field_c ∈ FIELD_ONLY_SET) then <[field_c := val]> flat
  else flat.

(** [walk(path, obj)], threading the dictionary [flat] it updates.
    [path[-1]] raises on the empty path. *)
Fixpoint walk (path : list string) (obj : json) (flat : gmap string string)
    : option (gmap string string) :=
  match obj with
  | JDict items =>
      (fix items_loop (items : list (string * json)) (flat : gmap string string)
         : option (gmap string string) :=
         match items with
         | [] => Some flat
         | (k, v) :: rest =>
             flat' ← walk (path ++ [k]) v flat; items_loop rest flat'
         end) items flat
  | JLeaf obj =>
      let raw_sections := removelast path in
      raw_field ← last path;
      let field_c := canonical_field (VStr raw_field) in
      let section_c := resolve_section raw_sections in
      let val := py_str obj in
      Some (store_leaf section_c field_c val flat)
  end.

Definition flatten_json (merged : json) : option (gmap string string) :=
  walk [] merged ∅.

(** ** Worksheet *)

(** The active sheet: the cells that hold a value, by (row, column), and
    its dimensions. A cell that was never written reads as [None]. *)
Record worksheet := Worksheet {
  cells : gmap (nat * nat) value;
  max_row : nat;
  max_column : nat
}.

(** [ws.cell(row=r, column=c).value] *)
Definition cell (ws : worksheet) (r c : nat) : value :=
  default VNone (cells ws !! (r, c)).

(** [ws.cell(row=r, column=c).value = v] *)
Definition set_cell (ws : worksheet) (r c : nat) (v : value) : worksheet :=
  {| cells := <[(r, c) := v]> (cells ws);
     max_row := max_row ws `max` r;
     max_column := max_column ws `max` c |}.

(** [range(1, n+1)] *)
Definition columns (n : nat) : list nat := seq 1 n.

(** ** Column detector *)

(** First loop of [detect_sections]: the list [raw] and the running
    section [last]. *)
Definition carry_step (ws : worksheet) (st : list string * string) (col : nat)
    : list string * string :=
  let '(raw, last) := st in
  let sec := canonical_section (cell ws ROW_SECTION col) in
  let last := if nonempty sec then sec else last in
  (raw ++ [last], last).

Definition carry (ws : worksheet) : list string :=
  fst (foldl (carry_step ws) ([], "") (columns (max_column ws))).

(** [next((i for i,x in enumerate(raw,1) if x == target), None)] *)
Fixpoint first_index_from (i : nat) (target : string) (raw : list string)
    : option nat :=
  match raw with
  | [] => None
  | x :: raw' =>
      if bool_decide (x = target) then Some i
      else first_index_from (S i) target raw'
  end.

(** Truth value of [comp1_start and col < comp1_start]. *)
Definition before_start (comp1_start : option nat) (col : nat) : bool :=
  match comp1_start with
  | None => false
  | Some i => negb (i =? 0) && (col <? i)
  end.

(** Second loop of [detect_sections]; [raw[col-1]] raises out of range. *)
Definition final_step (ws : worksheet) (raw : list string)
    (comp1_start : option nat) (final : option (gmap nat string)) (col : nat)
    : option (gmap nat string) :=
  final ← final;
  sec ← raw !! (col - 1);
  let field := canonical_field (cell ws ROW_FIELDS col) in
  let sec :=
    if nonempty sec then sec
    else if before_start comp1_start col then "SUBJECT"
    else if bool_decide (field ∈ SALES_HISTORY_COMP_FIELDS)
         then "SALES_HISTORY_SUBJECT"
    else sec in
  Some (<[col := sec]> final).

Definition detect_sections (ws : worksheet) : option (gmap nat string) :=
  let max_col := max_column ws in
  let raw := carry ws in
  let comp1_start := first_index_from 1 "COMPARABLE SALE #1" raw in
  foldl (final_step ws raw comp1_start) (Some ∅) (columns max_col).

(** ** Value resolver *)

Definition get (flat : gmap string string) (key : string) : string :=
  default "" (flat !! key).

Definition pick_value (section field : string) (flat : gmap string string)
    : string :=
  if bool_decide (field ∈ FIELD_ONLY_SET) then get flat field
  else if bool_decide (field ∈ SALES_HISTORY_COMP_FIELDS)
          && PyStr.startswith section "COMPARABLE SALE #"
       then get flat (section +:+ "." +:+ field)
  else if PyStr.startswith section "COMPARABLE SALE #"
       then get flat (section +:+ "." +:+ field)
  else if bool_decide (section = "SUBJECT")
       then get flat ("SUBJECT." +:+ field)
  else if bool_decide (section = "SALES_HISTORY_SUBJECT")
       then get flat ("SALES_HISTORY.Subject." +:+ field)
  else get flat (section +:+ "." +:+ field).

(** ** Writer *)

(** The dictionary [colmap], in insertion order. *)
Definition colmap_t : Type := list ((string * string) * nat).

Fixpoint lookup_colmap (key : string * string) (colmap : colmap_t)
    : option nat :=
  match colmap with
  | [] => None
  | (k, col) :: rest =>
      if bool_decide (k = key) then Some col else lookup_colmap key rest
  end.

(** [colmap.setdefault(key, col)] *)
Definition setdefault (key : string * string) (col : nat) (colmap : colmap_t)
    : colmap_t :=
  match lookup_colmap key colmap with
  | Some _ => colmap
  | None => colmap ++ [(key, col)]
  end.

(** One round of the loop that builds [colmap]; [secmap[col]] raises on a
    missing column. *)
Definition colmap_step (ws : worksheet) (secmap : gmap nat string)
    (colmap : option colmap_t) (col : nat) : option colmap_t :=
  colmap ← colmap;
  sec ← secmap !! col;
  let field := canonical_field (cell ws ROW_FIELDS col) in
  if nonempty sec && nonempty field
  then Some (setdefault (sec, field) col colmap)
  else Some colmap.

Definition build_colmap (ws : worksheet) (secmap : gmap nat string)
    : option colmap_t :=
  foldl (colmap_step ws secmap) (Some []) (columns (max_column ws)).

(** [current not in (None, "", " ")] *)
Definition non_blank (current : value) : bool :=
  negb (bool_decide (current = VNone)
        || bool_decide (current = VStr "")
        || bool_decide (current = VStr " ")).

(** One round of the fill loop, on the sheet and the counter [filled]. *)
Definition fill_step (flat : gmap string string) (new_row : nat)
    (st : worksheet * nat) (entry : (string * string) * nat)
    : worksheet * nat :=
  let '(ws, filled) := st in
  let '((sec, field), col) := entry in
  let current := cell ws new_row col in
  if non_blank current then (ws, filled)
  else
    let val := pick_value sec field flat in
    if nonempty val then (set_cell ws new_row col (VStr val), filled + 1)
    else (ws, filled).

Definition fill_loop (flat : gmap string string) (new_row : nat)
    (colmap : colmap_t) (ws : worksheet) : worksheet * nat :=
  foldl (fill_step flat new_row) (ws, 0) colmap.

(** [max(ws.max_row+1, FIRST_DATA_ROW)] *)
Definition new_row_of (ws : worksheet) : nat :=
  (max_row ws + 1) `max` FIRST_DATA_ROW.

(** The handler of the "Fill Excel" button, from the parsed document to
    the sheet that is saved and the count that is reported. *)
Definition fill_excel (merged_json : json) (ws : worksheet)
    : option (worksheet * nat) :=
  flat ← flatten_json merged_json;
  secmap ← detect_sections ws;
  colmap ← build_colmap ws secmap;
  let new_row := new_row_of ws in
  Some (fill_loop flat new_row colmap ws).

(** The fallback document of [clean_json_output]. *)
Definition error_document (raw_output : string) : json :=
  JDict [ ("error", JLeaf "Invalid JSON returned from model");
          ("raw_output", JLeaf raw_output) ].

(** Two fields of one section with the same canonical name. *)
Definition duplicate_field_document : json :=
  JDict [ ("SUBJECT", JDict [ ("State", JLeaf "WI"); ("state", JLeaf "MN") ]) ].

(** The depreciation as two blocks of the extraction report it. *)
Definition two_depreciations_document : json :=
  JDict [ ("RECONCILIATION", JDict [ ("Depreciation", JLeaf "500") ]);
          ("COST_APPROACH", JDict [ ("Depreciation", JLeaf "700") ]) ].

(** ** Page ranges *)

(** The value of a digit character. *)
Definition digit_value (c : ascii) : Z := Z.of_N (PyStr.code c) - 48.

(** The digits of an [int] literal, with single underscores between
    digits; [prev] tells that the character before was a digit. *)
Fixpoint int_digits (acc : Z) (prev : bool) (s : string) : option Z :=
  match s with
  | "" => if prev then Some acc else None
  | String c t =>
      if PyStr.is_digit c then int_digits (10 * acc + digit_value c) true t
      else if bool_decide (c = "_"%char) && prev && negb (PyStr.word_end t)
      then int_digits acc false t
      else None
  end.

(** [int(s)] for a string, on ASCII text: white space around, a sign, and
    decimal digits; [None] is the [ValueError]. The bound the interpreter
    may put on the number of digits is not modelled. *)
Definition py_int (s : string) : option Z :=
  match PyStr.strip s with
  | String "-" t => Z.opp <$> int_digits 0 false t
  | String "+" t => int_digits 0 false t
  | t => int_digits 0 false t
  end.

(** [s.split(sep, 1)] for a one-character [sep] that occurs in [s]: what
    stands before and after its first occurrence. *)
Fixpoint split_once (sep : ascii) (s : string) : option (string * string) :=
  match s with
  | "" => None
  | String c t =>
      if bool_decide (c = sep) then Some ("", t)
      else '(a, b) ← split_once sep t; Some (String c a, b)
  end.

(** [list(range(a, b))] *)
Definition py_range (a b : Z) : list Z := seqZ a (b - a).

Definition parse_page_list_single (range_str : string) : option (list Z) :=
  if PyStr.contains "-" range_str then
    '(a, b) ← split_once "-" range_str;
    a ← py_int a;
    b ← py_int b;
    Some (py_range a (b + 1))
  else
    p ← py_int range_str; Some [p].

(** A character of the class [[,\s]]. *)
Definition is_separator (c : ascii) : bool :=
  bool_decide (c = ","%char) || PyStr.is_space c.

(** [re.split(r"[,\s]+", s)]: the pieces between the maximal runs of
    separators, the first one being the piece under way; [in_sep] tells
    that the character before was a separator. *)
Fixpoint re_split_separators (in_sep : bool) (s : string) : list string :=
  match s with
  | "" => [""]
  | String c t =>
      if is_separator c then
        if in_sep then re_split_separators true t
        else "" :: re_split_separators true t
      else
        match re_split_separators false t with
        | piece :: pieces => String c piece :: pieces
        | [] => [String c ""]
        end
  end.

(** The loop of [parse_pages_input] over the parts. *)
Fixpoint parse_parts (parts : list string) (pages : list Z)
    : option (list Z) :=
  match parts with
  | [] => Some pages
  | part :: parts' =>
      if nonempty part then
        more ← parse_page_list_single part;
        parse_parts parts' (pages ++ more)
      else parse_parts parts' pages
  end.

(** [sorted(set(pages))] *)
Definition sorted_set (pages : list Z) : list Z :=
  merge_sort Z.le (remove_dups pages).

Definition parse_pages_input (pages_input : string) : option (list Z) :=
  pages ← parse_parts (re_split_separators false (PyStr.strip pages_input)) [];
  Some (sorted_set pages).

(** ** Page blocks *)

(** [split_into_blocks(all_pages)]: the subject, sales and cost pages. *)
Definition split_into_blocks (all_pages : list Z)
    : list Z * list Z * list Z :=
  match all_pages with
  | [] => ([], [], [])
  | [p] => ([p], [], [])
  | first :: _ =>
      let subject := [first] in
      let cost := [default first (last all_pages)] in
      let sales := filter (λ p, p ∉ subject ++ cost) all_pages in
      (subject, sales, cost)
  end.

(** ** Merging the blocks *)

(** [k in d] and [d[k]] on the items of a dictionary. *)
Fixpoint dict_get (k : string) (d : list (string * json)) : option json :=
  match d with
  | [] => None
  | (k', v) :: d' => if bool_decide (k' = k) then Some v else dict_get k d'
  end.

(** [d[k] = v]: the value is replaced where the key stands, or the item is
    added at the end. *)
Fixpoint dict_set (k : string) (v : json) (d : list (string * json))
    : list (string * json) :=
  match d with
  | [] => [(k, v)]
  | (k', v') :: d' =>
      if bool_decide (k' = k) then (k, v) :: d' else (k', v') :: dict_set k v d'
  end.

(** [d.update(other)] *)
Definition dict_update (d other : list (string * json))
    : list (string * json) :=
  foldl (λ d kv, dict_set kv.1 kv.2 d) d other.

(** One round of the inner loop of [merge_dicts]. *)
Definition merge_item (merged : list (string * json)) (kv : string * json)
    : list (string * json) :=
  let '(k, v) := kv in
  match dict_get k merged with
  | None => dict_set k v merged
  | Some cur =>
      match cur, v with
      | JDict cur_items, JDict v_items =>
          dict_set k (JDict (dict_update cur_items v_items)) merged
      | _, _ => merged
      end
  end.

(** One argument of [merge_dicts]: an argument that is not a dictionary
    is passed over. *)
Definition merge_one (merged : list (string * json)) (d : json)
    : list (string * json) :=
  match d with
  | JDict items => foldl merge_item merged items
  | JLeaf _ => merged
  end.

(** [merge_dicts], applied to the list of its arguments: the items of the
    merged dictionary. *)
Definition merge_dicts (dicts : list json) : list (string * json) :=
  foldl merge_one [] dicts.

(** ** Sample inputs *)

(** A sheet with one labelled column. *)
Definition example_sheet : worksheet :=
  {| cells := <[(2, 3) := VStr "Subject"]> (<[(3, 3) := VStr "State"]> ∅);
     max_row := 3;
     max_column := 4 |}.

(** The subject block and a sales block that both report the subject. *)
Definition subject_block : json :=
  JDict [ ("SUBJECT", JDict [ ("State", JLeaf "WI"); ("City", JLeaf "Madison") ]);
          ("SITE", JLeaf "none") ].

Definition sales_block : json :=
  JDict [ ("SUBJECT", JDict [ ("State", JLeaf "MN") ]);
          ("SITE", JDict [ ("Area", JLeaf "1 ac") ]) ].

(** ** Notions used to state the properties *)

(** The assignments [flat[key] = val] that [walk] performs, in the order
    it performs them: [walk] with the dictionary replaced by a log. *)
Definition leaf_assignments (section_c field_c val : string)
    : list (string * string) :=
  (if nonempty section_c && nonempty field_c
   then [(section_c +:+ "." +:+ field_c, val)] else [])
  ++ (if bool_decide (field_c ∈ FIELD_ONLY_SET) then [(field_c, val)] else []).

Fixpoint assignments (path : list string) (obj : json)
    : option (list (string * string)) :=
  match obj with
  | JDict items =>
      (fix items_loop (items : list (string * json))
         : option (list (string * string)) :=
         match items with
         | [] => Some []
         | (k, v) :: rest =>
             here ← assignments (path ++ [k]) v;
             later ← items_loop rest;
             Some (here ++ later)
         end) items
  | JLeaf obj =>
      raw_field ← last path;
      Some (leaf_assignments (resolve_section (removelast path))
              (canonical_field (VStr raw_field)) (py_str obj))
  end.

(** The value of the first, and of the last, assignment to [key] in a log. *)
Fixpoint first_assigned (key : string) (log : list (string * string))
    : option string :=
  match log with
  | [] => None
  | (k, v) :: log' =>
      if bool_decide (k = key) then Some v else first_assigned key log'
  end.

Definition last_assigned (key : string) (log : list (string * string))
    : option string :=
  first_assigned key (reverse log).

(** Replaying a log of assignments on a dictionary. *)
Definition replay (log : list (string * string)) (flat : gmap string string)
    : gmap string string :=
  foldl (λ m kv, <[kv.1 := kv.2]> m) flat log.

(** The section label a column carries in the section row. *)
Definition label (ws : worksheet) (col : nat) : string :=
  canonical_section (cell ws ROW_SECTION col).

(** The nearest non-empty label at column [col] or to its left; empty when
    there is none. *)
Fixpoint nearest_label (ws : worksheet) (col : nat) : string :=
  match col with
  | O => ""
  | S c =>
      if nonempty (label ws col) then label ws col else nearest_label ws c
  end.

(** Some column to the right of [col] resolves to ["COMPARABLE SALE #1"]. *)
Definition precedes_comp1 (ws : worksheet) (col : nat) : bool :=
  existsb
    (λ c, (col <? c) && bool_decide (nearest_label ws c = "COMPARABLE SALE #1"))
    (columns (max_column ws)).

(** The section of a column as the description of the detector gives it. *)
Definition described_section (ws : worksheet) (col : nat) : string :=
  let field := canonical_field (cell ws ROW_FIELDS col) in
  if nonempty (nearest_label ws col) then nearest_label ws col
  else if precedes_comp1 ws col then "SUBJECT"
  else if bool_decide (field ∈ SALES_HISTORY_COMP_FIELDS)
       then "SALES_HISTORY_SUBJECT"
  else "".

(** The (section, field) identity of a column under a section map. *)
Definition identity (ws : worksheet) (secmap : gmap nat string) (col : nat)
    : string * string :=
  (default "" (secmap !! col), canonical_field (cell ws ROW_FIELDS col)).

(** A key none of whose characters is a lower-case letter. *)
Fixpoint no_lower (s : string) : bool :=
  match s with
  | "" => true
  | String c t => negb (PyStr.is_lower c) && no_lower t
  end.

(** The leaves of a document with their paths, in the order in which the
    walk meets them. *)
Fixpoint leaves (path : list string) (obj : json)
    : list (list string * value) :=
  match obj with
  | JDict items =>
      (fix items_loop (items : list (string * json))
         : list (list string * value) :=
         match items with
         | [] => []
         | (k, v) :: rest => leaves (path ++ [k]) v ++ items_loop rest
         end) items
  | JLeaf v => [(path, v)]
  end.

(** The assignments made at one leaf, and the keys they go to. *)
Definition leaf_log (leaf : list string * value) : list (string * string) :=
  match last leaf.1 with
  | Some raw_field =>
      leaf_assignments (resolve_section (removelast leaf.1))
        (canonical_field (VStr raw_field)) (py_str leaf.2)
  | None => []
  end.

Definition leaf_keys (leaf : list string * value) : list string :=
  (leaf_log leaf).*1.

(** A text made of white space only: what [\s*] matches. *)
Fixpoint blanks (s : string) : bool :=
  match s with
  | "" => true
  | String c t => PyStr.is_space c && blanks t
  end.

(** Whether a text starts with a digit. *)
Definition starts_with_digit (s : string) : bool :=
  match s with
  | "" => false
  | String c _ => PyStr.is_digit c
  end.

(** What [merge_dicts] makes of the value [cur] it holds under a key and a
    later value [v] for that key. *)
Definition merge_value (cur v : json) : json :=
  match cur, v with
  | JDict cur_items, JDict v_items => JDict (dict_update cur_items v_items)
  | _, _ => cur
  end.

(** The values the dictionaries among [dicts] hold under [k], in order. *)
Definition values_under (k : string) (dicts : list json) : list json :=
  omap (λ d, match d with
             | JDict items => dict_get k items
             | JLeaf _ => None
             end) dicts.

(** The keys of a dictionary are pairwise distinct. *)
Definition distinct_keys (d : json) : Prop :=
  match d with
  | JDict items => NoDup items.*1
  | JLeaf _ => True
  end.

(** The two items of a fallback document. *)
Definition error_items (raw_output : string) : list (string * json) :=
  [ ("error", JLeaf "Invalid JSON returned from model");
    ("raw_output", JLeaf raw_output) ].

(** A dictionary argument that has neither of the keys of a fallback
    document. *)
Definition no_error_keys (d : json) : Prop :=
  match d with
  | JDict items => ("error" ∉ items.*1) ∧ ("raw_output" ∉ items.*1)
  | JLeaf _ => True
  end.

(** A text made of commas and white space only. *)
Fixpoint separators_only (s : string) : bool :=
  match s with
  | "" => true
  | String c t => is_separator c && separators_only t
  end.

(** * Properties *)

(** ** Induction on documents *)

Lemma json_ind' (P : json → Prop) :
  (∀ v, P (JLeaf v)) →
  (∀ items, Forall (λ kv, P kv.2) items → P (JDict items)) →
  ∀ j, P j.
Proof.
  intros Hleaf Hdict. fix IH 1. intros [v|items].
  - apply Hleaf.
  - apply Hdict. induction items as [|[k v] items IHitems].
    + constructor.
    + constructor; [apply IH | apply IHitems].
Qed.

(** ** Examples from the description *)

Example split_ex : PyStr.split "  ab  c d " = ["ab"; "c"; "d"].
Proof. reflexivity. Qed.
Example strip_ex : PyStr.strip "  ab  c d " = "ab  c d".
Proof. reflexivity. Qed.
Example replace_ex : PyStr.replace "# " "#" "a #  b# c" = "a # b#c".
Proof. reflexivity. Qed.
Example of_Z_ex : PyStr.of_Z (-120) = "-120".
Proof. reflexivity. Qed.
Example norm_ex1 : norm "  Comparable   Sale # 3 " = "COMPARABLE SALE #3".
Proof. vm_compute. reflexivity. Qed.
Example norm_ex2 : norm "#  X" = "# X".
Proof. vm_compute. reflexivity. Qed.
Example canonical_field_bdrms : canonical_field "BDRMS" = "BEDROOMS".
Proof. vm_compute. reflexivity. Qed.
Example canonical_field_baths : canonical_field "bath(s)" = "BATHS".
Proof. vm_compute. reflexivity. Qed.
Example flatten_subject :
  flatten_json (JDict [("SUBJECT", JDict [("Property Address", JLeaf "123 Main St")])])
  = Some {[ "SUBJECT.PROPERTY ADDRESS" := "123 Main St" ]}.
Proof. vm_compute. reflexivity. Qed.

(** ** The flattener at a leaf *)

Lemma nonempty_true s : nonempty s = true ↔ s ≠ "".
Proof. unfold nonempty. rewrite negb_true_iff, bool_decide_eq_false. done. Qed.

Lemma nonempty_false s : nonempty s = false ↔ s = "".
Proof. unfold nonempty. rewrite negb_false_iff, bool_decide_eq_true. done. Qed.

Lemma walk_leaf path raw_field v flat :
  walk (path ++ [raw_field]) (JLeaf v) flat
  = Some (store_leaf (resolve_section path) (canonical_field (VStr raw_field))
            (py_str v) flat).
Proof.
  cbn [walk]. rewrite last_snoc. cbn. by rewrite removelast_last.
Qed.

Lemma field_only_nonempty f : f ∈ FIELD_ONLY_SET → f ≠ "".
Proof. intros Hin ->. vm_compute in Hin. discriminate. Qed.

(** ** The column detector *)

Section detector.
Variable ws : worksheet.

Lemma carry_fold n :
  foldl (carry_step ws) ([], "") (columns n)
  = (nearest_label ws <$> columns n, nearest_label ws n).
Proof.
  unfold columns. induction n as [|n IH]; [done|].
  rewrite seq_S, foldl_snoc, IH, fmap_app. cbn [plus].
  unfold carry_step. cbn [nearest_label label fmap list_fmap].
  by destruct (nonempty _).
Qed.

Lemma carry_eq : carry ws = nearest_label ws <$> columns (max_column ws).
Proof. unfold carry. by rewrite carry_fold. Qed.

Lemma carry_lookup col :
  1 ≤ col ≤ max_column ws →
  carry ws !! (col - 1) = Some (nearest_label ws col).
Proof.
  intros Hcol. rewrite carry_eq, list_lookup_fmap. unfold columns.
  rewrite lookup_seq_lt by lia.
  by replace (1 + (col - 1)) with col by lia.
Qed.

(** Once a label has been met, every column to the right carries one. *)
Lemma nearest_label_persists c c' :
  c ≤ c' → nearest_label ws c ≠ "" → nearest_label ws c' ≠ "".
Proof.
  induction 1 as [|c' Hle IH]; [done|]. intros Hc.
  cbn [nearest_label]. destruct (nonempty _) eqn:Hn.
  - by apply nonempty_true.
  - by apply IH.
Qed.

Lemma first_index_from_spec (f : nat → string) target a n :
  match first_index_from a target (f <$> seq a n) with
  | Some i =>
      a ≤ i < a + n ∧ f i = target ∧ ∀ j, a ≤ j < i → f j ≠ target
  | None => ∀ j, a ≤ j < a + n → f j ≠ target
  end.
Proof.
  revert a. induction n as [|n IH]; intros a; cbn.
  - intros j ?. lia.
  - case_bool_decide as Heq.
    + split; [lia|]. split; [done|]. intros j ?. lia.
    + specialize (IH (S a)).
      destruct (first_index_from (S a) target (f <$> seq (S a) n)) as [i|].
      * destruct IH as (Hi & Hfi & Hmin). split; [lia|]. split; [done|].
        intros j Hj. destruct (decide (j = a)) as [->|]; [done|].
        apply Hmin. lia.
      * intros j Hj. destruct (decide (j = a)) as [->|]; [done|].
        apply IH. lia.
Qed.

(** On a column without a label to its left, the test on [comp1_start]
    is the test that a comparable #1 column stands to the right. *)
Lemma before_start_precedes col :
  nearest_label ws col = "" →
  before_start (first_index_from 1 "COMPARABLE SALE #1" (carry ws)) col
  = precedes_comp1 ws col.
Proof.
  intros Hcol. rewrite carry_eq. unfold columns, precedes_comp1, columns.
  pose proof (first_index_from_spec (nearest_label ws)
                "COMPARABLE SALE #1" 1 (max_column ws)) as Hspec.
  destruct (first_index_from _ _ _) as [i|]; cbn [before_start].
  - destruct Hspec as (Hi & Hfi & _).
    assert (col < i) as Hlt.
    { destruct (decide (col < i)) as [|Hge]; [done|]. exfalso.
      apply (nearest_label_persists i col); [lia| |done].
      by rewrite Hfi. }
    replace (i =? 0) with false by (symmetry; apply Nat.eqb_neq; lia).
    replace (col <? i) with true by (symmetry; apply Nat.ltb_lt; lia).
    symmetry. apply existsb_exists. exists i. split.
    + apply list_elem_of_In, elem_of_seq. lia.
    + rewrite bool_decide_eq_true_2 by done.
      by replace (col <? i) with true by (symmetry; apply Nat.ltb_lt; lia).
  - symmetry. apply not_true_is_false. intros Hex.
    apply existsb_exists in Hex as (c & Hin & Hc).
    apply list_elem_of_In, elem_of_seq in Hin.
    apply andb_true_iff in Hc as [_ Hc]. apply bool_decide_eq_true in Hc.
    by apply (Hspec c); [lia|].
Qed.

(** The section the second loop of [detect_sections] gives a column. *)
Definition detected (col : nat) : string :=
  let sec := nearest_label ws col in
  let field := canonical_field (cell ws ROW_FIELDS col) in
  if nonempty sec then sec
  else if before_start
            (first_index_from 1 "COMPARABLE SALE #1" (carry ws)) col
       then "SUBJECT"
  else if bool_decide (field ∈ SALES_HISTORY_COMP_FIELDS)
       then "SALES_HISTORY_SUBJECT"
  else sec.

Lemma detected_described col : detected col = described_section ws col.
Proof.
  unfold detected, described_section. cbn zeta.
  destruct (nonempty (nearest_label ws col)) eqn:Hn; [done|].
  apply nonempty_false in Hn. rewrite before_start_precedes by done.
  by rewrite Hn.
Qed.

Lemma final_fold n :
  n ≤ max_column ws →
  ∃ final,
    foldl (final_step ws (carry ws)
             (first_index_from 1 "COMPARABLE SALE #1" (carry ws)))
      (Some ∅) (columns n) = Some final
    ∧ ∀ col, final !! col
             = if bool_decide (1 ≤ col ≤ n) then Some (detected col) else None.
Proof.
  unfold columns. induction n as [|n IH]; intros Hn.
  - exists ∅. split; [done|]. intros col.
    rewrite bool_decide_eq_false_2 by lia. apply lookup_empty.
  - destruct IH as (final & Hfold & Hfinal); [lia|].
    rewrite seq_S, foldl_snoc, Hfold. cbn [plus].
    unfold final_step at 1. cbn [mbind option_bind].
    rewrite carry_lookup by lia. cbn [mbind option_bind].
    eexists. split; [reflexivity|]. intros col.
    rewrite lookup_insert. case_decide as Heq.
    + subst col. by rewrite (bool_decide_eq_true_2 (1 ≤ S n ≤ S n)) by lia.
    + rewrite Hfinal.
      destruct (decide (1 ≤ col ≤ n)).
      * rewrite !bool_decide_eq_true_2 by lia. done.
      * rewrite !bool_decide_eq_false_2 by lia. done.
Qed.

End detector.

Lemma detect_sections_total (ws : worksheet) :
  ∃ final,
    detect_sections ws = Some final
    ∧ ∀ col, final !! col
             = if bool_decide (1 ≤ col ≤ max_column ws)
               then Some (detected ws col) else None.
Proof. unfold detect_sections. apply (final_fold ws (max_column ws)). lia. Qed.

(** C3. [detect_sections] returns, for every grid, a map that gives each
    column 1..max_column the section of the description: the nearest
    non-empty label at or to the left of the column; without one, SUBJECT
    when a column resolving to COMPARABLE SALE #1 stands to its right, else
    SALES_HISTORY_SUBJECT when its field is a sales-history comparable
    field, else the empty section. Columns out of that range get none. *)
Theorem detect_sections_described (ws : worksheet) :
  ∃ final,
    detect_sections ws = Some final
    ∧ (∀ col, 1 ≤ col ≤ max_column ws →
              final !! col = Some (described_section ws col))
    ∧ (∀ col, ¬ (1 ≤ col ≤ max_column ws) → final !! col = None).
Proof.
  destruct (detect_sections_total ws) as (final & Hfold & Hfinal).
  exists final. split; [done|]. split; intros col Hcol; rewrite Hfinal.
  - rewrite bool_decide_eq_true_2 by done. by rewrite detected_described.
  - by rewrite bool_decide_eq_false_2.
Qed.

(** ** The column map *)

Lemma lookup_setdefault key k col (colmap : colmap_t) :
  lookup_colmap key (setdefault k col colmap)
  = match lookup_colmap key colmap with
    | Some c => Some c
    | None => if bool_decide (k = key) then Some col else None
    end.
Proof.
  unfold setdefault. destruct (lookup_colmap k colmap) as [c0|] eqn:Hk.
  - destruct (lookup_colmap key colmap) eqn:Hkey; [done|].
    case_bool_decide; [|done]. congruence.
  - clear Hk.
    induction colmap as [|[k' c'] colmap IH]; cbn [app lookup_colmap]; [done|].
    by destruct (bool_decide (k' = key)).
Qed.

Section column_map.
Variables (ws : worksheet) (secmap : gmap nat string).
Hypothesis secmap_total :
  ∀ col, 1 ≤ col ≤ max_column ws → is_Some (secmap !! col).

(** [col] is the leftmost of the columns 1..n that bear the identity
    [key]. *)
Definition leftmost (n : nat) (key : string * string) (col : nat) : Prop :=
  1 ≤ col ≤ n
  ∧ identity ws secmap col = key
  ∧ ∀ col', 1 ≤ col' < col → identity ws secmap col' ≠ key.

Lemma leftmost_unique n key c1 c2 :
  leftmost n key c1 → leftmost n key c2 → c1 = c2.
Proof.
  intros (H1 & Hid1 & Hmin1) (H2 & Hid2 & Hmin2).
  destruct (Nat.lt_trichotomy c1 c2) as [Hlt|[->|Hlt]]; [|done|].
  - exfalso. apply (Hmin2 c1); [lia|done].
  - exfalso. apply (Hmin1 c2); [lia|done].
Qed.

Lemma colmap_fold n :
  n ≤ max_column ws →
  ∃ colmap,
    foldl (colmap_step ws secmap) (Some []) (columns n) = Some colmap
    ∧ ∀ key col,
        lookup_colmap key colmap = Some col
        ↔ key.1 ≠ "" ∧ key.2 ≠ "" ∧ leftmost n key col.
Proof.
  unfold columns. induction n as [|n IH]; intros Hn.
  - exists []. split; [done|]. intros key col. split; [done|].
    intros (_ & _ & ? & _). lia.
  - destruct IH as (colmap & Hfold & Hcm); [lia|].
    rewrite seq_S, foldl_snoc, Hfold. cbn [plus].
    unfold colmap_step at 1. cbn [mbind option_bind].
    destruct (secmap_total (S n)) as [sec Hsec]; [lia|].
    rewrite Hsec. cbn [mbind option_bind].
    set (field := canonical_field (cell ws ROW_FIELDS (S n))).
    assert (identity ws secmap (S n) = (sec, field)) as Hid.
    { unfold identity. by rewrite Hsec. }
    assert (∀ key col, leftmost (S n) key col
              ↔ leftmost n key col
                ∨ (col = S n ∧ (sec, field) = key
                   ∧ ∀ c, ¬ leftmost n key c)) as Hstep.
    { intros key col. split.
      - intros (Hcol & Hkey & Hmin).
        destruct (decide (col = S n)) as [->|Hne].
        + right. split; [done|]. split; [congruence|].
          intros c (Hc & Hc' & _). apply (Hmin c); [lia|done].
        + left. split; [lia|done].
      - intros [(Hcol & Hkey & Hmin)|(-> & Hkey & Hnone)].
        + split; [lia|done].
        + split; [lia|]. split; [congruence|].
          intros col' Hcol' Hid'.
          induction col' as [col' IHc] using lt_wf_ind.
          destruct (decide (Exists (λ c, identity ws secmap c = key)
                              (seq 1 (col' - 1)))) as [Hex|Hno].
          * apply Exists_exists in Hex as (c & Hc & Hidc).
            apply elem_of_seq in Hc. apply (IHc c); [lia|lia|done].
          * apply (Hnone col'). split; [lia|]. split; [done|].
            intros c Hc Hidc. apply Hno, Exists_exists. exists c.
            split; [apply elem_of_seq; lia|done]. }
    destruct (nonempty sec && nonempty field) eqn:Hne.
    + eexists. split; [reflexivity|]. intros key col.
      rewrite lookup_setdefault, Hstep.
      apply andb_true_iff in Hne as [Hs Hf].
      apply nonempty_true in Hs, Hf.
      destruct (lookup_colmap key colmap) as [c|] eqn:Hlook.
      * apply Hcm in Hlook as (Hk1 & Hk2 & Hleft). split.
        -- intros [= <-]. auto.
        -- intros (_ & _ & [Hl|(_ & _ & Hnone)]).
           ++ f_equal. by eapply leftmost_unique.
           ++ by destruct (Hnone c).
      * assert (∀ c, key.1 ≠ "" → key.2 ≠ "" → ¬ leftmost n key c) as Hnone.
        { intros c ?? Hl.
          assert (lookup_colmap key colmap = Some c) as Hc by by apply Hcm.
          congruence. }
        case_bool_decide as Hkey; split.
        -- intros [= <-]. subst key. cbn. repeat split; [done..|].
           right. repeat split. intros c. by apply Hnone.
        -- intros (Hk1 & Hk2 & [Hl|(-> & _)]); [|done].
           by destruct (Hnone col).
        -- done.
        -- intros (Hk1 & Hk2 & [Hl|(_ & ? & _)]); [|done].
           by destruct (Hnone col).
    + eexists. split; [reflexivity|]. intros key col.
      rewrite Hcm, Hstep. split; [intuition|].
      intros (Hk1 & Hk2 & [Hl|(_ & <- & _)]); [done|].
      cbn in Hk1, Hk2. apply nonempty_true in Hk1, Hk2.
      rewrite Hk1, Hk2 in Hne. done.
Qed.

End column_map.

Lemma elem_of_colmap_lookup (colmap : colmap_t) key col :
  NoDup colmap.*1 →
  (key, col) ∈ colmap ↔ lookup_colmap key colmap = Some col.
Proof.
  induction colmap as [|[k c] colmap IH]; cbn [lookup_colmap fmap list_fmap].
  - intros _. split; [by intros ?%elem_of_nil|done].
  - intros [Hk Hnd]%NoDup_cons. rewrite elem_of_cons, IH by done.
    case_bool_decide as Heq.
    + subst k. split.
      * intros [[= ->]|Hin]; [done|]. exfalso. apply Hk.
        apply list_elem_of_fmap. exists (key, col). split; [done|].
        by apply IH.
      * intros [= ->]. by left.
    + split; [|by right]. intros [[= -> ->]|Hin]; done.
Qed.

Lemma setdefault_NoDup key col (colmap : colmap_t) :
  NoDup colmap.*1 → NoDup (setdefault key col colmap).*1.
Proof.
  intros Hnd. unfold setdefault.
  destruct (lookup_colmap key colmap) eqn:Hlook; [done|].
  rewrite fmap_app. apply NoDup_app. split; [done|]. split.
  - intros k Hin Hk. apply list_elem_of_singleton in Hk. cbn in Hk. subst k.
    apply list_elem_of_fmap in Hin as ([k c] & Hk & Hin). cbn in Hk. subst k.
    apply elem_of_colmap_lookup in Hin; [|done]. congruence.
  - apply NoDup_singleton.
Qed.

Lemma colmap_fold_NoDup ws secmap cols (acc : option colmap_t) colmap :
  foldl (colmap_step ws secmap) acc cols = Some colmap →
  (∀ c, acc = Some c → NoDup c.*1) →
  NoDup colmap.*1.
Proof.
  revert acc. induction cols as [|col cols IH]; intros acc; cbn [foldl].
  - intros -> H. by apply H.
  - intros Hfold Hacc. apply (IH _ Hfold). intros c.
    unfold colmap_step. destruct acc as [c0|]; cbn; [|done].
    destruct (secmap !! col); cbn; [|done].
    destruct (_ && _); intros [= <-]; [apply setdefault_NoDup|]; by apply Hacc.
Qed.

Lemma build_colmap_total (ws : worksheet) :
  ∃ secmap colmap,
    detect_sections ws = Some secmap
    ∧ build_colmap ws secmap = Some colmap
    ∧ (∀ key col,
         lookup_colmap key colmap = Some col
         ↔ key.1 ≠ "" ∧ key.2 ≠ ""
           ∧ leftmost ws secmap (max_column ws) key col)
    ∧ NoDup colmap.*1.
Proof.
  destruct (detect_sections_total ws) as (secmap & Hsec & Hin).
  destruct (colmap_fold ws secmap) with (n := max_column ws)
    as (colmap & Hfold & Hcm); [|done|].
  { intros col Hcol. rewrite Hin, bool_decide_eq_true_2 by done. by eexists. }
  exists secmap, colmap. split; [done|]. split; [done|]. split; [done|].
  apply (colmap_fold_NoDup _ _ _ _ _ Hfold).
  intros c [= <-]. constructor.
Qed.

(** C5. For every grid the column map is built, its keys are the
    identities with a non-empty section and a non-empty field, and the
    column recorded for an identity is the leftmost of the columns
    1..max_column that bear it; every entry the fill loop iterates over is
    such a pair, so a later column with the same identity is never a
    target. *)
Theorem colmap_first_column (ws : worksheet) :
  ∃ secmap colmap,
    detect_sections ws = Some secmap
    ∧ build_colmap ws secmap = Some colmap
    ∧ (∀ sec field col,
         lookup_colmap (sec, field) colmap = Some col
         ↔ sec ≠ "" ∧ field ≠ ""
           ∧ leftmost ws secmap (max_column ws) (sec, field) col)
    ∧ (∀ key col,
         (key, col) ∈ colmap ↔ lookup_colmap key colmap = Some col).
Proof.
  destruct (build_colmap_total ws) as (secmap & colmap & Hs & Hc & Hcm & Hnd).
  exists secmap, colmap. split; [done|]. split; [done|]. split.
  - intros sec field col. apply Hcm.
  - intros key col. by apply elem_of_colmap_lookup.
Qed.

(** ** The writer *)

Lemma cell_set_cell ws r c v r' c' :
  cell (set_cell ws r c v) r' c'
  = if decide ((r, c) = (r', c')) then v else cell ws r' c'.
Proof.
  unfold cell, set_cell. cbn [cells]. rewrite lookup_insert.
  by case_decide.
Qed.

Section writer.
Variables (flat : gmap string string) (new_row : nat).

(** One round leaves every cell that holds a non-blank value as it is. *)
Lemma fill_step_frame st entry r c :
  non_blank (cell st.1 r c) = true →
  cell (fill_step flat new_row st entry).1 r c = cell st.1 r c.
Proof.
  destruct st as [ws filled], entry as [[sec field] col]. cbn [fst].
  intros Hnb. unfold fill_step.
  destruct (non_blank (cell ws new_row col)) eqn:Hcur; [done|].
  destruct (nonempty _); [|done]. cbn [fst].
  rewrite cell_set_cell. case_decide as Heq; [|done].
  injection Heq as -> ->. congruence.
Qed.

Lemma fill_fold_frame colmap st r c :
  non_blank (cell st.1 r c) = true →
  cell (foldl (fill_step flat new_row) st colmap).1 r c = cell st.1 r c.
Proof.
  revert st. induction colmap as [|entry colmap IH]; intros st Hnb; [done|].
  cbn [foldl]. rewrite IH; rewrite fill_step_frame; done.
Qed.

Lemma fill_fold_filled (colmap : colmap_t) ws filled :
  (∀ key col, (key, col) ∈ colmap →
              non_blank (cell ws new_row col) = true) →
  foldl (fill_step flat new_row) (ws, filled) colmap = (ws, filled).
Proof.
  induction colmap as [|[[sec field] col] colmap IH]; intros Hall; [done|].
  cbn [foldl]. unfold fill_step at 2.
  rewrite (Hall (sec, field) col) by (apply elem_of_cons; by left).
  apply IH. intros key c Hin. apply (Hall key). apply elem_of_cons. by right.
Qed.

End writer.

(** C4. The fill loop leaves every cell whose value is not [None], [""] or
    [" "] as it is, whatever the row and the column map; and on a row
    whose mapped cells all hold such a value it returns the sheet
    unchanged with the count 0. *)
Theorem writer_never_overwrites
    (flat : gmap string string) (new_row : nat) (colmap : colmap_t)
    (ws : worksheet) :
  (∀ r c, non_blank (cell ws r c) = true →
          cell (fill_loop flat new_row colmap ws).1 r c = cell ws r c)
  ∧ ((∀ key col, (key, col) ∈ colmap →
                 non_blank (cell ws new_row col) = true) →
     fill_loop flat new_row colmap ws = (ws, 0)).
Proof.
  split.
  - intros r c Hnb. unfold fill_loop. by rewrite fill_fold_frame.
  - intros Hall. by apply fill_fold_filled.
Qed.

(** ** The fallback document *)

Lemma pick_value_empty section field : pick_value section field ∅ = "".
Proof.
  unfold pick_value, get. rewrite !lookup_empty. cbn [default].
  repeat (match goal with |- context [if ?b then _ else _] => destruct b end);
    reflexivity.
Qed.

Lemma fill_fold_empty new_row (colmap : colmap_t) ws filled :
  foldl (fill_step ∅ new_row) (ws, filled) colmap = (ws, filled).
Proof.
  induction colmap as [|[[sec field] col] colmap IH]; [done|].
  cbn [foldl]. unfold fill_step at 2. rewrite pick_value_empty.
  cbn [nonempty]. by destruct (non_blank _).
Qed.

(** C8. Walking the fallback document of [clean_json_output] leaves any
    index as it is, so its flattening is the empty index; on the empty
    index every column resolves to the empty string, and filling a sheet
    from that document succeeds, writes nothing and counts 0 fields. *)
Theorem error_document_contributes_nothing (raw_output : string) :
  (∀ flat, walk [] (error_document raw_output) flat = Some flat)
  ∧ flatten_json (error_document raw_output) = Some ∅
  ∧ (∀ section field, pick_value section field ∅ = "")
  ∧ (∀ ws, fill_excel (error_document raw_output) ws = Some (ws, 0)).
Proof.
  assert (∀ flat, walk [] (error_document raw_output) flat = Some flat) as Hw.
  { intros flat. unfold error_document. cbn [walk].
    change ([] ++ ["error"]) with (["error" : string]).
    change ([] ++ ["raw_output"]) with (["raw_output" : string]).
    cbn [last removelast mbind option_bind].
    replace (canonical_field (VStr "error")) with "ERROR"
      by (vm_compute; reflexivity).
    replace (canonical_field (VStr "raw_output")) with "RAW_OUTPUT"
      by (vm_compute; reflexivity).
    reflexivity. }
  split; [done|]. split; [apply Hw|]. split; [apply pick_value_empty|].
  intros ws. unfold fill_excel, flatten_json. rewrite Hw.
  cbn [mbind option_bind].
  destruct (build_colmap_total ws) as (secmap & colmap & -> & Hcm & _).
  cbn [mbind option_bind]. rewrite Hcm. cbn [mbind option_bind].
  unfold fill_loop. by rewrite fill_fold_empty.
Qed.

(** ** The flattener as a log of assignments *)

Lemma replay_app log1 log2 flat :
  replay (log1 ++ log2) flat = replay log2 (replay log1 flat).
Proof. apply foldl_app. Qed.

Lemma store_leaf_replay section_c field_c val flat :
  store_leaf section_c field_c val flat
  = replay (leaf_assignments section_c field_c val) flat.
Proof.
  unfold store_leaf, leaf_assignments.
  destruct (nonempty section_c && nonempty field_c);
    by destruct (bool_decide (field_c ∈ FIELD_ONLY_SET)).
Qed.

Lemma walk_assignments obj :
  ∀ path flat,
    walk path obj flat = (λ log, replay log flat) <$> assignments path obj.
Proof.
  induction obj as [v|items IH] using json_ind'; intros path flat.
  - cbn [walk assignments]. destruct (last path) as [raw_field|]; [|done].
    cbn. by rewrite store_leaf_replay.
  - cbn [walk assignments]. revert flat.
    induction IH as [|[k v] items Hv _ IHitems]; intros flat; [done|].
    cbn [snd] in Hv. rewrite Hv.
    destruct (assignments (path ++ [k]) v) as [here|]; [|done].
    cbn [fmap option_fmap option_map mbind option_bind].
    rewrite IHitems.
    match goal with |- context [?f items] =>
      match type of (f items) with option (list _) => destruct (f items) end
    end; [|done].
    cbn. by rewrite replay_app.
Qed.

Lemma last_assigned_snoc key log k v :
  last_assigned key (log ++ [(k, v)])
  = if bool_decide (k = key) then Some v else last_assigned key log.
Proof. unfold last_assigned. by rewrite reverse_snoc. Qed.

Lemma replay_lookup log flat key :
  replay log flat !! key
  = match last_assigned key log with
    | Some v => Some v
    | None => flat !! key
    end.
Proof.
  induction log as [|[k v] log IH] using rev_ind; [done|].
  unfold replay in *. rewrite foldl_snoc, last_assigned_snoc. cbn [fst snd].
  rewrite lookup_insert. case_decide; [by rewrite bool_decide_eq_true_2|].
  by rewrite bool_decide_eq_false_2.
Qed.

Lemma flatten_json_replay doc :
  flatten_json doc = (λ log, replay log ∅) <$> assignments [] doc.
Proof. apply walk_assignments. Qed.

(** C2, as amended. Whenever the walk of a document completes, the value
    the index holds under a key is the one of the last assignment the walk
    made to that key: when two leaves flatten to the same key, the later
    one in the depth-first order wins. *)
Theorem flatten_last_assignment_wins (doc : json) (log : list (string * string)) :
  assignments [] doc = Some log →
  ∃ flat,
    flatten_json doc = Some flat
    ∧ ∀ key, flat !! key = last_assigned key log.
Proof.
  intros Hlog. rewrite flatten_json_replay, Hlog. eexists. split; [done|].
  intros key. rewrite replay_lookup, lookup_empty.
  by destruct (last_assigned key log).
Qed.

Lemma flatten_last_assignment_wins_witness :
  ∃ flat,
    flatten_json duplicate_field_document = Some flat
    ∧ ∀ key,
        flat !! key
        = last_assigned key [("SUBJECT.STATE", "WI"); ("SUBJECT.STATE", "MN")].
Proof.
  apply (flatten_last_assignment_wins duplicate_field_document).
  vm_compute. reflexivity.
Defined.

(** C2, as stated, fails: in [{"SUBJECT": {"State": "WI", "state": "MN"}}]
    both leaves flatten to ["SUBJECT.STATE"], the first assignment stores
    ["WI"], and the index ends with ["MN"]. *)
Lemma first_occurrence_does_not_win :
  assignments [] duplicate_field_document
  = Some [("SUBJECT.STATE", "WI"); ("SUBJECT.STATE", "MN")]
  ∧ flatten_json duplicate_field_document
    = Some {[ "SUBJECT.STATE" := "MN" ]}
  ∧ first_assigned "SUBJECT.STATE"
      [("SUBJECT.STATE", "WI"); ("SUBJECT.STATE", "MN")] = Some "WI"
  ∧ ({[ "SUBJECT.STATE" := "MN" ]} : gmap string string) !! "SUBJECT.STATE"
    ≠ Some "WI".
Proof.
  split; [vm_compute; reflexivity|]. split; [vm_compute; reflexivity|].
  split; [vm_compute; reflexivity|]. rewrite lookup_singleton_eq. discriminate.
Qed.

(** ** Strings: appending and character classes *)

Lemma app_cons c s t : String c s +:+ t = String c (s +:+ t).
Proof. reflexivity. Qed.

Lemma app_empty t : "" +:+ t = t.
Proof. reflexivity. Qed.

Lemma app_empty_r s : s +:+ "" = s.
Proof. induction s as [|c s IH]; [done|]. by rewrite app_cons, IH. Qed.

Lemma string_app_assoc s t u : (s +:+ t) +:+ u = s +:+ t +:+ u.
Proof. induction s as [|c s IH]; [done|]. by rewrite !app_cons, IH. Qed.

(** Pushes the characters of literal prefixes out of the appends. *)
Ltac str_norm := rewrite ?app_cons, ?app_empty.
Ltac str_norm_in H := rewrite ?app_cons, ?app_empty in H.

Lemma no_lower_app s t : no_lower (s +:+ t) = no_lower s && no_lower t.
Proof.
  induction s as [|c s IH]; [done|].
  rewrite app_cons. cbn [no_lower]. by rewrite IH, andb_assoc.
Qed.

Lemma upper_char_not_lower c : PyStr.is_lower (PyStr.upper_char c) = false.
Proof. destruct c as [[] [] [] [] [] [] [] []]; vm_compute; reflexivity. Qed.

Lemma digit_not_lower c : PyStr.is_digit c = true → PyStr.is_lower c = false.
Proof. destruct c as [[] [] [] [] [] [] [] []]; vm_compute; done. Qed.

Lemma no_lower_upper s : no_lower (PyStr.upper s) = true.
Proof.
  induction s as [|c s IH]; [done|].
  cbn [PyStr.upper no_lower]. by rewrite upper_char_not_lower, IH.
Qed.

Lemma no_lower_digits s : no_lower (PyStr.take_while PyStr.is_digit s) = true.
Proof.
  induction s as [|c s IH]; [done|]. cbn [PyStr.take_while].
  destruct (PyStr.is_digit c) eqn:Hd; [|done].
  cbn [no_lower]. by rewrite (digit_not_lower c), IH.
Qed.

(** ** What the patterns match *)

Lemma match_spaces_digits_Some s ds n :
  match_spaces_digits s = Some (ds, n) →
  ds = PyStr.take_while PyStr.is_digit (PyStr.drop_while PyStr.is_space s)
  ∧ ds ≠ ""
  ∧ n = String.length (PyStr.take_while PyStr.is_space s) + String.length ds.
Proof.
  unfold match_spaces_digits. destruct (nonempty _) eqn:Hne; [|done].
  intros [= <- <-]. by apply nonempty_true in Hne.
Qed.

Lemma match_comparabe_digits s n :
  match_comparabe s = Some n →
  ∃ t, n = PyStr.take_while PyStr.is_digit t ∧ n ≠ "".
Proof.
  unfold match_comparabe.
  destruct (PyStr.strip_prefix "COMPAR" s) as [s1|]; [|done].
  cbn [mbind option_bind].
  assert (∀ t,
            (PyStr.strip_prefix "BE" t ≫= λ t', fst <$> match_spaces_digits t')
            = Some n →
            ∃ t0, n = PyStr.take_while PyStr.is_digit t0 ∧ n ≠ "") as Htail.
  { intros t. destruct (PyStr.strip_prefix "BE" t) as [t'|]; [|done].
    cbn [mbind option_bind].
    destruct (match_spaces_digits t') as [[ds k]|] eqn:Hm; [|done].
    intros [= <-]. apply match_spaces_digits_Some in Hm as (Hds & Hne & _).
    eauto. }
  destruct (PyStr.strip_prefix "A" s1) as [s2|]; cbn [mbind option_bind].
  - destruct (PyStr.strip_prefix "BE" s2 ≫= _) eqn:Ha.
    + intros [= <-]. by apply (Htail s2).
    + apply Htail.
  - apply Htail.
Qed.

Lemma match_comparable_sale_Some s ds n :
  match_comparable_sale s = Some (ds, n) →
  ∃ t k,
    PyStr.strip_prefix "COMPARABLE SALE #" s = Some t
    ∧ match_spaces_digits t = Some (ds, k)
    ∧ n = 17 + k.
Proof.
  unfold match_comparable_sale.
  destruct (PyStr.strip_prefix _ s) as [t|]; [|done]. cbn [mbind option_bind].
  destruct (match_spaces_digits t) as [[ds' k]|] eqn:Hm; [|done].
  cbn [mbind option_bind]. intros [= <- <-]. by exists t, k.
Qed.

Lemma no_lower_sub_go s :
  ∀ skip, no_lower s = true → no_lower (sub_comparable_sale_go skip s) = true.
Proof.
  induction s as [|c s IH]; intros skip Hs; [done|].
  cbn [no_lower] in Hs. apply andb_true_iff in Hs as [Hc Hs].
  cbn [sub_comparable_sale_go]. destruct skip as [|k]; [|by apply IH].
  destruct (match_comparable_sale (String c s)) as [[ds n]|] eqn:Hm.
  - apply match_comparable_sale_Some in Hm as (t & k & _ & Hm & _).
    apply match_spaces_digits_Some in Hm as (-> & _ & _).
    rewrite !no_lower_app, no_lower_digits, IH by done. reflexivity.
  - cbn [no_lower]. by rewrite Hc, IH.
Qed.

(** ** Keys of the index are upper case *)

Lemma no_lower_norm v : no_lower (norm v) = true.
Proof. unfold norm. destruct (truthy v); [apply no_lower_upper|done]. Qed.

Lemma field_only_cases f :
  f ∈ FIELD_ONLY_SET →
  f ∈ [ "OPINION OF SITE VALUE"; "TOTAL ESTIMATE OF COST-NEW"; "DEPRECIATION";
        "R.E. TAX YEAR"; "HOA FREQUENCY"; "POOL" ].
Proof. unfold FIELD_ONLY_SET. by rewrite elem_of_list_to_set. Qed.

Lemma no_lower_field_only f : f ∈ FIELD_ONLY_SET → no_lower f = true.
Proof.
  intros Hin%field_only_cases.
  repeat (apply elem_of_cons in Hin as [->|Hin]; [reflexivity|]).
  by apply elem_of_nil in Hin.
Qed.

Lemma no_lower_canonical_field v : no_lower (canonical_field v) = true.
Proof.
  unfold canonical_field. cbn zeta.
  destruct (FIELD_SYNONYMS !! norm v) as [f|] eqn:Hf; cbn [default].
  - unfold FIELD_SYNONYMS in Hf. apply elem_of_list_to_map_2 in Hf.
    repeat (apply elem_of_cons in Hf as [[= ? ->]|Hf]; [reflexivity|]).
    by apply elem_of_nil in Hf.
  - apply no_lower_norm.
Qed.

Lemma no_lower_canonical_section v : no_lower (canonical_section v) = true.
Proof.
  unfold canonical_section, section_rules. cbn zeta.
  destruct (match_comparabe (norm v)) as [n|] eqn:Hm.
  - apply match_comparabe_digits in Hm as (t & -> & _).
    by rewrite no_lower_app, no_lower_digits.
  - repeat (match goal with |- context [if ?b then _ else _] => destruct b end;
            [first [reflexivity | apply no_lower_sub_go, no_lower_norm]|]).
    apply no_lower_norm.
Qed.

(** ** The shape of the keys *)

(** A key of the index is a canonical section and a canonical field around
    a dot, or a field of the field-only set. *)
Definition key_shape (key : string) : Prop :=
  (∃ p f : string,
     canonical_section p ≠ ""
     ∧ key = canonical_section p +:+ "." +:+ canonical_field f)
  ∨ key ∈ FIELD_ONLY_SET.

Lemma first_section_canonical ps :
  first_section ps ≠ "" → ∃ p : string, first_section ps = canonical_section p.
Proof.
  induction ps as [|p ps IH]; [done|]. cbn [first_section].
  destruct (nonempty _); [by exists p|done].
Qed.

Lemma leaf_assignments_shape section_c (raw_field : string) val key v :
  (section_c ≠ "" → ∃ p : string, section_c = canonical_section p) →
  (key, v) ∈ leaf_assignments section_c (canonical_field raw_field) val →
  key_shape key.
Proof.
  intros Hsec. unfold leaf_assignments. rewrite elem_of_app.
  intros [Hin|Hin].
  - destruct (nonempty section_c && nonempty _) eqn:Hne;
      [|by apply elem_of_nil in Hin].
    apply list_elem_of_singleton in Hin as [= -> ->].
    apply andb_true_iff in Hne as [Hs%nonempty_true _].
    destruct (Hsec Hs) as [p ->]. left. by exists p, raw_field.
  - case_bool_decide; [|by apply elem_of_nil in Hin].
    apply list_elem_of_singleton in Hin as [= -> ->]. by right.
Qed.

Lemma assignments_shape obj :
  ∀ path log key v,
    assignments path obj = Some log → (key, v) ∈ log → key_shape key.
Proof.
  induction obj as [leaf|items IH] using json_ind'; intros path log key v.
  - cbn [assignments]. destruct (last path) as [raw_field|]; [|done].
    cbn [mbind option_bind]. intros [= <-].
    apply leaf_assignments_shape. apply first_section_canonical.
  - cbn [assignments]. revert log.
    induction IH as [|[k j] items Hj _ IHitems]; intros log.
    + intros [= <-] Hin. by apply elem_of_nil in Hin.
    + cbn [snd] in Hj.
      destruct (assignments (path ++ [k]) j) as [here|] eqn:Hhere; [|done].
      cbn [mbind option_bind].
      match goal with |- context [?f items] =>
        match type of (f items) with option (list _) =>
          destruct (f items) as [later|] eqn:Hlater
        end
      end; [|done].
      cbn [mbind option_bind]. intros [= <-] [Hin|Hin]%elem_of_app.
      * by eapply Hj.
      * by eapply IHitems.
Qed.

Lemma last_assigned_elem key log v :
  last_assigned key log = Some v → (key, v) ∈ log.
Proof.
  unfold last_assigned. rewrite <- elem_of_reverse.
  induction (reverse log) as [|[k v'] l IH]; [done|]. cbn [first_assigned].
  case_bool_decide as Heq.
  - intros [= <-]. subst k. apply elem_of_cons. by left.
  - intros H. apply elem_of_cons. right. by apply IH.
Qed.

Lemma flatten_json_shape doc flat key v :
  flatten_json doc = Some flat → flat !! key = Some v → key_shape key.
Proof.
  rewrite flatten_json_replay.
  destruct (assignments [] doc) as [log|] eqn:Hlog; [|done].
  intros [= <-]. rewrite replay_lookup, lookup_empty.
  destruct (last_assigned key log) as [v'|] eqn:Hlast; [|done].
  intros _. apply last_assigned_elem in Hlast.
  by eapply assignments_shape.
Qed.

Lemma key_shape_no_lower key : key_shape key → no_lower key = true.
Proof.
  intros [(p & f & _ & ->)|Hin].
  - by rewrite !no_lower_app, no_lower_canonical_section,
      no_lower_canonical_field.
  - by apply no_lower_field_only.
Qed.

Lemma flatten_json_keys_upper doc flat key :
  flatten_json doc = Some flat → is_Some (flat !! key) → no_lower key = true.
Proof.
  intros Hflat [v Hv]. apply key_shape_no_lower.
  by eapply flatten_json_shape.
Qed.

Lemma pick_value_sales_history_subject field flat :
  field ∉ FIELD_ONLY_SET →
  pick_value "SALES_HISTORY_SUBJECT" field flat
  = get flat ("SALES_HISTORY.Subject." +:+ field).
Proof.
  intros Hf. unfold pick_value. rewrite bool_decide_eq_false_2 by done.
  change (PyStr.startswith "SALES_HISTORY_SUBJECT" "COMPARABLE SALE #")
    with false.
  rewrite andb_false_r.
  rewrite (bool_decide_eq_false_2 ("SALES_HISTORY_SUBJECT" = "SUBJECT"))
    by discriminate.
  by rewrite bool_decide_eq_true_2.
Qed.

(** C10, as amended. Every key of an index produced by [flatten_json] is
    free of lower-case letters, so for every field outside the field-only
    set the lookup of [pick_value] for the section SALES_HISTORY_SUBJECT,
    under ["SALES_HISTORY.Subject." + field], finds nothing and the empty
    string is returned. *)
Theorem sales_history_subject_resolves_empty
    (doc : json) (flat : gmap string string) (field : string) :
  flatten_json doc = Some flat →
  field ∉ FIELD_ONLY_SET →
  (∀ key, is_Some (flat !! key) → no_lower key = true)
  ∧ flat !! ("SALES_HISTORY.Subject." +:+ field) = None
  ∧ pick_value "SALES_HISTORY_SUBJECT" field flat = "".
Proof.
  intros Hflat Hf.
  assert (flat !! ("SALES_HISTORY.Subject." +:+ field) = None) as Hnone.
  { destruct (flat !! _) as [v|] eqn:Hv; [|done].
    assert (no_lower ("SALES_HISTORY.Subject." +:+ field) = true) as Hup
      by (eapply flatten_json_keys_upper; eauto).
    rewrite no_lower_app in Hup. discriminate. }
  split; [intros key; by apply flatten_json_keys_upper with doc|].
  split; [done|].
  rewrite pick_value_sales_history_subject by done. unfold get.
  by rewrite Hnone.
Qed.

Lemma sales_history_subject_resolves_empty_witness :
  (∀ key,
     is_Some (({[ "SUBJECT.STATE" := "MN" ]} : gmap string string) !! key) →
     no_lower key = true)
  ∧ ({[ "SUBJECT.STATE" := "MN" ]} : gmap string string)
      !! ("SALES_HISTORY.Subject." +:+ "DATA SOURCE(S)") = None
  ∧ pick_value "SALES_HISTORY_SUBJECT" "DATA SOURCE(S)"
      {[ "SUBJECT.STATE" := "MN" ]} = "".
Proof.
  apply (sales_history_subject_resolves_empty duplicate_field_document).
  - vm_compute. reflexivity.
  - vm_compute. discriminate.
Defined.

(** C10, as stated, fails on the fields of the field-only set, which
    [pick_value] resolves before it looks at the section: with the index
    of [{"RECONCILIATION": {"Depreciation": "500"}}] the section
    SALES_HISTORY_SUBJECT and the field DEPRECIATION resolve to ["500"]. *)
Lemma sales_history_subject_field_only_not_empty :
  flatten_json
    (JDict [("RECONCILIATION", JDict [("Depreciation", JLeaf "500")])])
  = Some (<["DEPRECIATION" := "500"]>
            {[ "RECONCILIATION.DEPRECIATION" := "500" ]})
  ∧ pick_value "SALES_HISTORY_SUBJECT" "DEPRECIATION"
      (<["DEPRECIATION" := "500"]>
         {[ "RECONCILIATION.DEPRECIATION" := "500" ]})
    = "500".
Proof. split; vm_compute; reflexivity. Qed.

(** ** The outcomes of the rule cascade *)

Definition section_tags : list string :=
  [ "ONE_UNIT_HOUSING_TRENDS"; "ONE_UNIT_HOUSING"; "RECONCILIATION";
    "COST_APPROACH"; "SALES_HISTORY"; "SUBJECT" ].

Lemma section_rules_cases s :
  (∃ n t, section_rules s = "COMPARABLE SALE #" +:+ n
          ∧ n = PyStr.take_while PyStr.is_digit t ∧ n ≠ "")
  ∨ (PyStr.startswith s "COMPARABLE SALE #" = true
     ∧ section_rules s = sub_comparable_sale s)
  ∨ section_rules s ∈ section_tags
  ∨ (section_rules s = s
     ∧ PyStr.contains "SALES" s && PyStr.contains "HISTORY" s = false).
Proof.
  unfold section_rules. destruct (match_comparabe s) as [n|] eqn:Hm.
  { left. apply match_comparabe_digits in Hm as (t & Hn & Hne).
    by exists n, t. }
  right. destruct (PyStr.startswith s _) eqn:Hp; [by left|]. right.
  unfold section_tags.
  repeat (match goal with |- context [if ?b then _ else _] =>
            destruct b eqn:?
          end; [left; set_solver|]).
  by right.
Qed.

Lemma sub_comparable_sale_head s :
  PyStr.startswith s "COMPARABLE SALE #" = true →
  ∃ r, sub_comparable_sale s = String "C" r.
Proof.
  destruct s as [|c t]; [done|]. cbn [PyStr.startswith].
  intros [Hc%bool_decide_eq_true _]%andb_true_iff. subst c.
  unfold sub_comparable_sale. cbn [sub_comparable_sale_go].
  destruct (match_comparable_sale _) as [[ds n]|].
  - str_norm. by eexists.
  - by eexists.
Qed.

(** A dotted key that begins with a dot-free block [l] and a dot has a
    first component that begins with [l]. *)
Lemma dotted_prefix l :
  ∀ a b f,
    PyStr.contains "." l = false →
    a +:+ "." +:+ b = l +:+ "." +:+ f →
    ∃ r, a = l +:+ r.
Proof.
  induction l as [|c l IH]; intros a b f Hl Heq; [by exists a|].
  cbn [PyStr.contains] in Hl. apply orb_false_iff in Hl as [Hc Hl].
  destruct a as [|c' a].
  - str_norm_in Heq. injection Heq as Hdot _. subst c.
    vm_compute in Hc. discriminate.
  - str_norm_in Heq. injection Heq as -> Heq.
    destruct (IH a b f Hl Heq) as [r ->]. by exists r.
Qed.

Lemma contains_app_r p l r :
  PyStr.startswith l p = true → PyStr.startswith (l +:+ r) p = true.
Proof.
  revert l. induction p as [|a p IH]; intros l; [by destruct l|].
  destruct l as [|b l]; [done|]. str_norm. cbn [PyStr.startswith].
  intros [-> Hp]%andb_true_iff. by rewrite IH.
Qed.

Lemma contains_app p l r :
  PyStr.contains p l = true → PyStr.contains p (l +:+ r) = true.
Proof.
  induction l as [|c l IH].
  - cbn [PyStr.contains]. rewrite orb_false_r. intros Hp.
    destruct p; [|done]. by destruct r.
  - str_norm. cbn [PyStr.contains].
    intros [Hp|Hp]%orb_true_iff.
    + apply (contains_app_r _ _ r) in Hp. str_norm_in Hp. by rewrite Hp.
    + rewrite IH by done. apply orb_true_r.
Qed.

(** No key stands under the synthetic section SALES_HISTORY_SUBJECT. *)
Lemma no_sales_history_subject_key field :
  ¬ key_shape ("SALES_HISTORY_SUBJECT." +:+ field).
Proof.
  intros [(p & f & Hne & Heq)|Hin].
  - unfold canonical_section in *. cbn zeta in *.
    destruct (section_rules_cases (norm p))
      as [(n & t & Hr & _)|[(Hp & Hr)|[Hr|(Hr & Hc)]]].
    + rewrite Hr in Heq. str_norm_in Heq. discriminate.
    + apply sub_comparable_sale_head in Hp as [r Hp].
      rewrite Hr, Hp in Heq. str_norm_in Heq. discriminate.
    + unfold section_tags in Hr.
      repeat (apply elem_of_cons in Hr as [Hr|Hr];
              [rewrite Hr in Heq; str_norm_in Heq; discriminate|]).
      by apply elem_of_nil in Hr.
    + rewrite Hr in Heq. symmetry in Heq.
      change ("SALES_HISTORY_SUBJECT." +:+ field)
        with ("SALES_HISTORY_SUBJECT" +:+ "." +:+ field) in Heq.
      apply dotted_prefix in Heq as [r Heq]; [|reflexivity].
      rewrite Heq in Hc.
      rewrite !contains_app in Hc by reflexivity. discriminate.
  - apply field_only_cases in Hin.
    repeat (apply elem_of_cons in Hin as [Hin|Hin];
            [str_norm_in Hin; discriminate|]).
    by apply elem_of_nil in Hin.
Qed.

(** ** Resolving what was flattened *)

(** C1, as amended. For every document and every composite key
    [section.field] of its index whose field is outside the field-only
    set, [pick_value] returns the value stored under that key. *)
Theorem pick_value_round_trip
    (doc : json) (flat : gmap string string) (section field v : string) :
  flatten_json doc = Some flat →
  flat !! (section +:+ "." +:+ field) = Some v →
  field ∉ FIELD_ONLY_SET →
  pick_value section field flat = v.
Proof.
  intros Hflat Hkey Hf.
  assert (get flat (section +:+ "." +:+ field) = v) as Hget
    by (unfold get; by rewrite Hkey).
  unfold pick_value. rewrite bool_decide_eq_false_2 by done.
  destruct (_ && _); [done|].
  destruct (PyStr.startswith section _); [done|].
  case_bool_decide as Hsubj; [by subst section|].
  case_bool_decide as Hshs; [|done]. subst section. exfalso.
  apply (no_sales_history_subject_key field).
  by eapply flatten_json_shape.
Qed.

Lemma pick_value_round_trip_witness :
  pick_value "SUBJECT" "PROPERTY ADDRESS"
    {[ "SUBJECT.PROPERTY ADDRESS" := "123 Main St" ]} = "123 Main St".
Proof.
  apply (pick_value_round_trip
           (JDict [("SUBJECT",
                    JDict [("Property Address", JLeaf "123 Main St")])])).
  - vm_compute. reflexivity.
  - vm_compute. reflexivity.
  - vm_compute. discriminate.
Defined.

(** C1, as stated, fails on a field of the field-only set: in the index of
    [two_depreciations_document] the key ["RECONCILIATION.DEPRECIATION"]
    holds ["500"], and [pick_value] for that section and field returns the
    ["700"] stored under the bare field by the later block. *)
Lemma pick_value_field_only_not_round_trip :
  ∃ flat,
    flatten_json two_depreciations_document = Some flat
    ∧ flat !! ("RECONCILIATION" +:+ "." +:+ "DEPRECIATION") = Some "500"
    ∧ pick_value "RECONCILIATION" "DEPRECIATION" flat = "700".
Proof.
  exists (<["DEPRECIATION" := "700"]>
            (<["COST_APPROACH.DEPRECIATION" := "700"]>
               (<["DEPRECIATION" := "500"]>
                  {[ "RECONCILIATION.DEPRECIATION" := "500" ]}))).
  split; [vm_compute; reflexivity|].
  split; vm_compute; reflexivity.
Qed.

(** ** Normal forms of [norm] *)

(** Every white space character is a single blank followed by a character
    that is not white space. *)
Fixpoint spaced (s : string) : bool :=
  match s with
  | "" => true
  | String c t =>
      (if PyStr.is_space c
       then bool_decide (c = " "%char) && negb (PyStr.word_end t)
       else true)
      && spaced t
  end.

(** The text starts with a white space character. *)
Definition lead (s : string) : bool :=
  match s with
  | "" => false
  | String c _ => PyStr.is_space c
  end.

(** [s[k:]] *)
Fixpoint drop_chars (k : nat) (s : string) : string :=
  match k, s with
  | O, _ => s
  | S k', String _ t => drop_chars k' t
  | S _, "" => ""
  end.

Definition collapse (s : string) : string := PyStr.join " " (PyStr.split s).

Lemma join_cons_word c w ws :
  PyStr.join " " (String c w :: ws) = String c (PyStr.join " " (w :: ws)).
Proof. unfold PyStr.join. cbn [String.concat]. by destruct ws. Qed.

Lemma split_nonempty s : PyStr.word_end s = false → PyStr.split s ≠ [].
Proof.
  destruct s as [|c t]; [done|]. cbn [PyStr.word_end PyStr.split].
  intros ->. destruct (PyStr.word_end t); [done|]. by destruct (PyStr.split t).
Qed.

Lemma collapse_space c t :
  PyStr.is_space c = true → collapse (String c t) = collapse t.
Proof. intros Hc. unfold collapse. cbn [PyStr.split]. by rewrite Hc. Qed.

Lemma collapse_word c t :
  PyStr.is_space c = false →
  collapse (String c t)
  = String c (if PyStr.word_end t
              then match PyStr.split t with
                   | [] => ""
                   | _ => String " " (collapse t)
                   end
              else collapse t).
Proof.
  intros Hc. unfold collapse. cbn [PyStr.split]. rewrite Hc.
  destruct (PyStr.word_end t) eqn:Hend.
  - unfold PyStr.join. cbn [String.concat]. by destruct (PyStr.split t).
  - pose proof (split_nonempty t Hend) as Hne.
    destruct (PyStr.split t) as [|w ws]; [done|]. apply join_cons_word.
Qed.

Lemma word_end_collapse s :
  PyStr.word_end (collapse s)
  = match PyStr.split s with [] => true | _ => false end.
Proof.
  induction s as [|c t IH]; [done|].
  destruct (PyStr.is_space c) eqn:Hc.
  - rewrite collapse_space by done. cbn [PyStr.split]. by rewrite Hc.
  - rewrite collapse_word by done. cbn [PyStr.word_end PyStr.split].
    rewrite Hc. destruct (PyStr.word_end t); [done|].
    by destruct (PyStr.split t).
Qed.

Lemma spaced_collapse s : spaced (collapse s) = true.
Proof.
  induction s as [|c t IH]; [done|].
  destruct (PyStr.is_space c) eqn:Hc.
  - by rewrite collapse_space.
  - rewrite collapse_word by done. cbn [spaced]. rewrite Hc. cbn [andb].
    destruct (PyStr.word_end t); [|done].
    pose proof (word_end_collapse t) as Hend.
    destruct (PyStr.split t); [done|].
    cbn [spaced]. rewrite Hend, IH. reflexivity.
Qed.

Lemma lead_collapse s : lead (collapse s) = false.
Proof.
  pose proof (word_end_collapse s) as Hend. unfold collapse in *.
  destruct (PyStr.split s); [done|].
  by destruct (PyStr.join _ _).
Qed.

Lemma spaced_tail c t : spaced (String c t) = true → spaced t = true.
Proof. cbn [spaced]. by intros [_ ?]%andb_true_iff. Qed.

Lemma spaced_space c t :
  spaced (String c t) = true → PyStr.is_space c = true →
  c = " "%char ∧ PyStr.word_end t = false.
Proof.
  cbn [spaced]. intros [Hc _]%andb_true_iff Hsp. rewrite Hsp in Hc.
  apply andb_true_iff in Hc as [Hc%bool_decide_eq_true Hend%negb_true_iff].
  done.
Qed.

Lemma lstrip_no_lead s : lead s = false → PyStr.lstrip s = s.
Proof. destruct s as [|c t]; [done|]. cbn. by intros ->. Qed.

Lemma collapse_spaced s : spaced s = true → collapse s = PyStr.lstrip s.
Proof.
  induction s as [|c t IH]; [done|]. intros Hs.
  pose proof (spaced_tail _ _ Hs) as Ht. specialize (IH Ht).
  destruct (PyStr.is_space c) eqn:Hc.
  - rewrite collapse_space by done. cbn [PyStr.lstrip]. by rewrite Hc.
  - rewrite collapse_word by done. cbn [PyStr.lstrip]. rewrite Hc. f_equal.
    destruct (PyStr.word_end t) eqn:Hend.
    + destruct t as [|d t']; [done|]. cbn [PyStr.word_end] in Hend.
      destruct (spaced_space _ _ Ht Hend) as [-> Hend'].
      rewrite IH. cbn [PyStr.split PyStr.lstrip]. rewrite Hend.
      pose proof (split_nonempty _ Hend') as Hne.
      destruct (PyStr.split t'); [done|].
      rewrite lstrip_no_lead; [done|]. by destruct t'.
    + rewrite IH. apply lstrip_no_lead. by destruct t.
Qed.

Lemma rstrip_spaced s : spaced s = true → PyStr.rstrip s = s.
Proof.
  induction s as [|c t IH]; [done|]. intros Hs.
  cbn [PyStr.rstrip]. rewrite IH by by eapply spaced_tail.
  destruct t as [|d t']; [|done].
  destruct (PyStr.is_space c) eqn:Hc; [|done].
  by destruct (spaced_space _ _ Hs Hc) as [_ ?].
Qed.

Lemma replace_go_absent old new s :
  PyStr.contains old s = false → PyStr.replace_go old new 0 s = s.
Proof.
  induction s as [|c t IH]; [done|]. cbn [PyStr.contains PyStr.replace_go].
  intros [-> Ht]%orb_false_iff. by rewrite IH.
Qed.

Lemma spaced_no_newline s : spaced s = true → PyStr.contains NL s = false.
Proof.
  induction s as [|c t IH]; [done|]. intros Hs.
  cbn [PyStr.contains]. rewrite IH by by eapply spaced_tail.
  rewrite orb_false_r. unfold NL. cbn [PyStr.startswith].
  rewrite andb_true_r. apply bool_decide_eq_false. intros <-.
  by destruct (spaced_space _ _ Hs eq_refl) as [? _].
Qed.

Lemma upper_no_lower s : no_lower s = true → PyStr.upper s = s.
Proof.
  induction s as [|c t IH]; [done|]. cbn [no_lower PyStr.upper].
  intros [Hc%negb_true_iff Ht]%andb_true_iff.
  unfold PyStr.upper_char. by rewrite Hc, IH.
Qed.

(** A text in normal form is left as it is by [norm]. *)
Lemma norm_fixed (s : string) :
  spaced s = true → lead s = false → no_lower s = true →
  PyStr.contains "# " s = false →
  norm s = s.
Proof.
  intros Hsp Hlead Hup Hhash. unfold norm. cbn [truthy py_str].
  case_bool_decide as Hempty; [by subst s|]. cbn [negb].
  unfold PyStr.replace, PyStr.strip.
  rewrite (replace_go_absent NL) by by apply spaced_no_newline.
  rewrite lstrip_no_lead, rstrip_spaced by done.
  rewrite replace_go_absent by done.
  fold (collapse s). rewrite collapse_spaced, lstrip_no_lead by done.
  by apply upper_no_lower.
Qed.

Lemma is_space_upper_char c :
  PyStr.is_space (PyStr.upper_char c) = PyStr.is_space c.
Proof. destruct c as [[] [] [] [] [] [] [] []]; vm_compute; reflexivity. Qed.

Lemma upper_char_space c :
  PyStr.is_space c = true → PyStr.upper_char c = c.
Proof. destruct c as [[] [] [] [] [] [] [] []]; vm_compute; done. Qed.

Lemma word_end_upper s : PyStr.word_end (PyStr.upper s) = PyStr.word_end s.
Proof. destruct s; [done|]. apply is_space_upper_char. Qed.

Lemma spaced_upper s : spaced (PyStr.upper s) = spaced s.
Proof.
  induction s as [|c t IH]; [done|]. cbn [PyStr.upper spaced].
  rewrite is_space_upper_char, word_end_upper, IH.
  destruct (PyStr.is_space c) eqn:Hc; [|done].
  by rewrite upper_char_space.
Qed.

Lemma lead_upper s : lead (PyStr.upper s) = lead s.
Proof. destruct s; [done|]. apply is_space_upper_char. Qed.

Lemma spaced_norm v : spaced (norm v) = true.
Proof.
  unfold norm. destruct (truthy v); [|done].
  rewrite spaced_upper. apply spaced_collapse.
Qed.

Lemma lead_norm v : lead (norm v) = false.
Proof.
  unfold norm. destruct (truthy v); [|done].
  rewrite lead_upper. apply lead_collapse.
Qed.

(** Under the hypothesis that no ["# "] is left, [norm] is idempotent. *)
Lemma norm_norm v :
  PyStr.contains "# " (norm v) = false → norm (norm v) = norm v.
Proof.
  intros Hhash.
  apply norm_fixed; auto using spaced_norm, lead_norm, no_lower_norm.
Qed.

(** ** The substitution of the second rule *)

Lemma strip_prefix_Some p s t :
  PyStr.strip_prefix p s = Some t → s = p +:+ t.
Proof.
  revert s. induction p as [|a p IH]; intros s; cbn [PyStr.strip_prefix].
  - by intros [= ->].
  - destruct s as [|b s]; [done|]. case_bool_decide; [|done].
    intros ->%IH. by subst.
Qed.

Lemma take_drop_while f s :
  s = PyStr.take_while f s +:+ PyStr.drop_while f s.
Proof.
  induction s as [|c t IH]; [done|]. cbn [PyStr.take_while PyStr.drop_while].
  destruct (f c); [|done]. str_norm. by rewrite <- IH.
Qed.

Lemma spaced_app_r a b : spaced (a +:+ b) = true → spaced b = true.
Proof.
  induction a as [|c a IH]; [done|]. str_norm.
  intros ?%spaced_tail. by apply IH.
Qed.

Lemma contains_app_l p a b :
  PyStr.contains p (a +:+ b) = false → PyStr.contains p b = false.
Proof.
  induction a as [|c a IH]; [done|]. str_norm. cbn [PyStr.contains].
  intros [_ ?]%orb_false_iff. by apply IH.
Qed.

Lemma drop_chars_app a b k :
  drop_chars (String.length a + k) (a +:+ b) = drop_chars k b.
Proof. induction a as [|c a IH]; [done|]. str_norm. apply IH. Qed.

Lemma drop_chars_app0 a b : drop_chars (String.length a) (a +:+ b) = b.
Proof.
  pose proof (drop_chars_app a b 0) as H. by rewrite Nat.add_0_r in H.
Qed.

(** On a text in which every white space is a blank and no ["# "] occurs,
    a match has no white space between the hash and the digits, and the
    substitution writes back what it has matched. *)
Lemma sub_go_absent s :
  ∀ skip,
    spaced s = true → PyStr.contains "# " s = false →
    sub_comparable_sale_go skip s = drop_chars skip s.
Proof.
  induction s as [|c s IH]; intros skip Hsp Hhash; [by destruct skip|].
  pose proof (spaced_tail _ _ Hsp) as Hsp'.
  assert (PyStr.contains "# " s = false) as Hhash'.
  { cbn [PyStr.contains] in Hhash. by apply orb_false_iff in Hhash as [_ ?]. }
  cbn [sub_comparable_sale_go]. destruct skip as [|k]; [|by apply IH].
  cbn [drop_chars].
  destruct (match_comparable_sale (String c s)) as [[ds n]|] eqn:Hm;
    [|by rewrite IH].
  apply match_comparable_sale_Some in Hm as (t & k & Hpre & Hm & ->).
  apply strip_prefix_Some in Hpre.
  apply match_spaces_digits_Some in Hm as (Hds & _ & ->).
  assert (PyStr.take_while PyStr.is_space t = "") as Hnosp.
  { destruct t as [|d t']; [done|]. cbn [PyStr.take_while].
    destruct (PyStr.is_space d) eqn:Hd; [|done]. exfalso.
    rewrite Hpre in Hsp, Hhash.
    apply spaced_app_r in Hsp. destruct (spaced_space _ _ Hsp Hd) as [-> _].
    apply (contains_app_l _ "COMPARABLE SALE ") in Hhash.
    vm_compute in Hhash. discriminate. }
  assert (PyStr.drop_while PyStr.is_space t = t) as Hdrop.
  { rewrite (take_drop_while PyStr.is_space t) at 2. by rewrite Hnosp. }
  rewrite Hnosp, Hdrop in *. clear Hnosp Hdrop.
  change "COMPARABLE SALE #" with (String "C" "OMPARABLE SALE #") in Hpre.
  rewrite app_cons in Hpre. injection Hpre as -> ->.
  rewrite IH by done.
  replace (17 + (String.length "" + String.length ds) - 1)
    with (String.length "OMPARABLE SALE #" + String.length ds)
    by (cbn [String.length]; lia).
  rewrite drop_chars_app.
  pose proof (take_drop_while PyStr.is_digit t) as Ht. rewrite <- Hds in Ht.
  clear Hds.
  assert (drop_chars (String.length ds) t = PyStr.drop_while PyStr.is_digit t)
    as -> by (rewrite Ht at 1; apply drop_chars_app0).
  by rewrite Ht at 2.
Qed.

(** ** The comparable form is a fixed point *)

(** A text made of digits only. *)
Fixpoint digits (s : string) : bool :=
  match s with
  | "" => true
  | String c t => PyStr.is_digit c && digits t
  end.

Lemma digits_take_while s : digits (PyStr.take_while PyStr.is_digit s) = true.
Proof.
  induction s as [|c t IH]; [done|]. cbn [PyStr.take_while].
  destruct (PyStr.is_digit c) eqn:Hc; [|done]. cbn [digits]. by rewrite Hc.
Qed.

Lemma digit_not_space c : PyStr.is_digit c = true → PyStr.is_space c = false.
Proof. destruct c as [[] [] [] [] [] [] [] []]; vm_compute; done. Qed.

Lemma digit_not_hash c : PyStr.is_digit c = true → c ≠ "#"%char.
Proof. intros Hc ->. vm_compute in Hc. discriminate. Qed.

Lemma spaced_digits s : digits s = true → spaced s = true.
Proof.
  induction s as [|c t IH]; [done|]. cbn [digits spaced].
  intros [Hc Ht]%andb_true_iff. by rewrite (digit_not_space c), IH.
Qed.

Lemma spaced_digits_app s r :
  digits s = true → spaced (s +:+ r) = spaced r.
Proof.
  induction s as [|c t IH]; [done|]. cbn [digits]. str_norm. cbn [spaced].
  intros [Hc Ht]%andb_true_iff. by rewrite (digit_not_space c), IH.
Qed.

Lemma no_hash_digits s : digits s = true → PyStr.contains "# " s = false.
Proof.
  induction s as [|c t IH]; [done|]. cbn [digits PyStr.contains].
  intros [Hc Ht]%andb_true_iff. rewrite IH, orb_false_r by done.
  cbn [PyStr.startswith]. rewrite bool_decide_eq_false_2; [done|].
  intros Heq. by apply (digit_not_hash c).
Qed.

(** The shape of the first rule's result. *)
Lemma comparable_form_tidy n :
  digits n = true → n ≠ "" →
  spaced ("COMPARABLE SALE #" +:+ n) = true
  ∧ PyStr.contains "# " ("COMPARABLE SALE #" +:+ n) = false.
Proof.
  intros Hn Hne. destruct n as [|d n']; [done|].
  cbn [digits] in Hn. apply andb_true_iff in Hn as [Hd Hn'].
  split.
  - change (spaced (String d n') = true).
    cbn [spaced]. by rewrite (digit_not_space d), spaced_digits.
  - str_norm. cbn [PyStr.contains PyStr.startswith].
    rewrite (no_hash_digits n') by done.
    assert (bool_decide (" "%char = d) = false) as ->.
    { apply bool_decide_eq_false. intros <-. vm_compute in Hd. discriminate. }
    assert (bool_decide ("#"%char = d) = false) as ->.
    { apply bool_decide_eq_false. intros <-. vm_compute in Hd. discriminate. }
    vm_compute. reflexivity.
Qed.

Lemma startswith_Some s p :
  PyStr.startswith s p = true → ∃ r, s = p +:+ r.
Proof.
  revert s. induction p as [|a p IH]; intros s; [by exists s|].
  destruct s as [|b s]; [done|]. cbn [PyStr.startswith].
  intros [<-%bool_decide_eq_true [r ->]%IH]%andb_true_iff. by exists r.
Qed.

(** A text in the comparable form is not matched by the misspelling
    pattern, and starts as the second rule wants. *)
Lemma comparable_form_rules r :
  match_comparabe ("COMPARABLE SALE #" +:+ r) = None
  ∧ PyStr.startswith ("COMPARABLE SALE #" +:+ r) "COMPARABLE SALE #" = true.
Proof. split; reflexivity. Qed.

Lemma section_rules_comparable_form r :
  spaced ("COMPARABLE SALE #" +:+ r) = true →
  PyStr.contains "# " ("COMPARABLE SALE #" +:+ r) = false →
  section_rules ("COMPARABLE SALE #" +:+ r) = "COMPARABLE SALE #" +:+ r.
Proof.
  intros Hsp Hhash. unfold section_rules.
  destruct (comparable_form_rules r) as [-> ->].
  unfold sub_comparable_sale. by rewrite sub_go_absent.
Qed.

Lemma spaced_drop_chars s : ∀ k, spaced s = true → spaced (drop_chars k s) = true.
Proof.
  induction s as [|c t IH]; intros [|k] Hs; try done.
  cbn [drop_chars]. apply IH. by eapply spaced_tail.
Qed.

(** The substitution keeps the spacing of a text. *)
Lemma spaced_sub_go s :
  ∀ skip,
    spaced s = true →
    spaced (sub_comparable_sale_go skip s) = true
    ∧ PyStr.word_end (sub_comparable_sale_go skip s)
      = PyStr.word_end (drop_chars skip s).
Proof.
  induction s as [|c t IH]; intros skip Hs; [by destruct skip|].
  pose proof (spaced_tail _ _ Hs) as Ht.
  cbn [sub_comparable_sale_go]. destruct skip as [|k]; [|by apply IH].
  cbn [drop_chars].
  destruct (match_comparable_sale (String c t)) as [[ds n]|] eqn:Hm.
  - apply match_comparable_sale_Some in Hm as (t' & k & Hpre & Hm & ->).
    apply strip_prefix_Some in Hpre.
    apply match_spaces_digits_Some in Hm as (Hds & _ & _).
    destruct (IH (17 + k - 1) Ht) as [Hsp _].
    split.
    + change (spaced (ds +:+ sub_comparable_sale_go (17 + k - 1) t) = true).
      rewrite spaced_digits_app; [done|]. rewrite Hds. apply digits_take_while.
    + rewrite Hpre. reflexivity.
  - destruct (IH 0 Ht) as [Hsp Hend]. cbn [drop_chars] in Hend.
    split; [|done]. cbn [spaced] in Hs |- *.
    apply andb_true_iff in Hs as [Hc _]. by rewrite Hend, Hsp, Hc.
Qed.

(** No match starts at a character other than [C]. *)
Lemma sub_go_other c t :
  c ≠ "C"%char →
  sub_comparable_sale_go 0 (String c t)
  = String c (sub_comparable_sale_go 0 t).
Proof.
  intros Hc. cbn [sub_comparable_sale_go].
  unfold match_comparable_sale. cbn [PyStr.strip_prefix].
  by rewrite bool_decide_eq_false_2 by done.
Qed.

Lemma sub_go_cons c t :
  sub_comparable_sale_go 0 (String c t)
  = match match_comparable_sale (String c t) with
    | Some (ds, n) =>
        "COMPARABLE SALE #" +:+ ds +:+ sub_comparable_sale_go (n - 1) t
    | None => String c (sub_comparable_sale_go 0 t)
    end.
Proof. reflexivity. Qed.

Lemma sub_comparable_sale_form t :
  ∃ r, sub_comparable_sale ("COMPARABLE SALE #" +:+ t) = "COMPARABLE SALE #" +:+ r.
Proof.
  unfold sub_comparable_sale. rewrite (app_cons "C"), sub_go_cons.
  destruct (match_comparable_sale _) as [[ds n]|].
  - exists (ds +:+ sub_comparable_sale_go (n - 1) ("OMPARABLE SALE #" +:+ t)).
    reflexivity.
  - exists (sub_comparable_sale_go 0 t). str_norm.
    by rewrite !sub_go_other by discriminate.
Qed.

(** A tidy text in the comparable form is a fixed point of
    [canonical_section]. *)
Lemma canonical_section_comparable_form r :
  spaced ("COMPARABLE SALE #" +:+ r) = true →
  no_lower ("COMPARABLE SALE #" +:+ r) = true →
  PyStr.contains "# " ("COMPARABLE SALE #" +:+ r) = false →
  canonical_section ("COMPARABLE SALE #" +:+ r) = "COMPARABLE SALE #" +:+ r.
Proof.
  intros Hsp Hup Hhash. unfold canonical_section. cbn zeta.
  rewrite norm_fixed by done. by apply section_rules_comparable_form.
Qed.

(** C6, as amended. For every label whose canonical section contains no
    hash sign followed by a blank, applying [canonical_section] to the
    canonical section gives it back. *)
Theorem canonical_section_idempotent (s : value) :
  PyStr.contains "# " (canonical_section s) = false →
  canonical_section (canonical_section s) = canonical_section s.
Proof.
  intros Hhash.
  pose proof (no_lower_canonical_section s) as Hup.
  assert (canonical_section s = section_rules (norm s)) as Hcs by reflexivity.
  rewrite Hcs in Hhash, Hup |- *. clear Hcs.
  destruct (section_rules_cases (norm s))
    as [(n & t & Hr & Hn & Hne)|[(Hp & Hr)|[Hr|(Hr & _)]]].
  - rewrite Hr in Hhash, Hup |- *.
    destruct (comparable_form_tidy n) as [Hsp _];
      [rewrite Hn; apply digits_take_while|assumption|].
    apply canonical_section_comparable_form; assumption.
  - apply startswith_Some in Hp as [t Hp].
    destruct (sub_comparable_sale_form t) as [r Hform].
    assert (spaced (section_rules (norm s)) = true) as Hsp.
    { rewrite Hr. apply spaced_sub_go, spaced_norm. }
    rewrite Hr, Hp, Hform in Hhash, Hup, Hsp |- *.
    apply canonical_section_comparable_form; assumption.
  - unfold section_tags in Hr.
    repeat (apply elem_of_cons in Hr as [->|Hr];
            [vm_compute; reflexivity|]).
    by apply elem_of_nil in Hr.
  - rewrite Hr in Hhash |- *. unfold canonical_section. cbn zeta.
    rewrite norm_norm by assumption. exact Hr.
Qed.

Lemma canonical_section_idempotent_witness :
  canonical_section (canonical_section "Comparable  Sale #  3 (north)")
  = canonical_section "Comparable  Sale #  3 (north)".
Proof.
  apply (canonical_section_idempotent "Comparable  Sale #  3 (north)").
  vm_compute. reflexivity.
Defined.

(** C6, as stated, fails: the label ["#  X"] (a hash sign and two blanks)
    has the canonical section ["# X"], whose canonical section is
    ["#X"]. *)
Lemma canonical_section_not_idempotent :
  canonical_section "#  X" = "# X"
  ∧ canonical_section (canonical_section "#  X") = "#X"
  ∧ canonical_section (canonical_section "#  X") ≠ canonical_section "#  X".
Proof.
  split; [vm_compute; reflexivity|]. split; [vm_compute; reflexivity|].
  vm_compute. discriminate.
Qed.

(** ** The flattener leaf by leaf *)

Lemma assignments_leaves obj :
  ∀ path, path ≠ [] → assignments path obj = Some (leaves path obj ≫= leaf_log).
Proof.
  induction obj as [v|items IH] using json_ind'; intros path Hpath.
  - cbn [assignments leaves]. unfold leaf_log. cbn [fst snd mbind list_bind].
    destruct (last path) as [raw_field|] eqn:Hlast.
    + cbn. by rewrite app_nil_r.
    + by apply last_None in Hlast.
  - cbn [assignments leaves].
    induction IH as [|[k v] items Hv _ IHitems]; [done|].
    cbn [snd] in Hv. rewrite Hv by (by destruct path).
    cbn [mbind option_bind]. rewrite IHitems. cbn [mbind option_bind].
    by rewrite bind_app.
Qed.

Lemma assignments_dict_leaves items :
  assignments [] (JDict items) = Some (leaves [] (JDict items) ≫= leaf_log).
Proof.
  cbn [assignments leaves]. generalize (@nil string) as path. intros path.
  induction items as [|[k v] items IH]; [done|].
  rewrite assignments_leaves by (by destruct path).
  cbn [mbind option_bind]. rewrite IH. cbn [mbind option_bind].
  by rewrite bind_app.
Qed.

Lemma last_assigned_app key log1 log2 :
  last_assigned key (log1 ++ log2)
  = match last_assigned key log2 with
    | Some v => Some v
    | None => last_assigned key log1
    end.
Proof.
  induction log2 as [|[k v] log2 IH] using rev_ind.
  - by rewrite app_nil_r.
  - rewrite app_assoc, !last_assigned_snoc. by case_bool_decide.
Qed.

Lemma last_assigned_absent key log :
  key ∉ log.*1 → last_assigned key log = None.
Proof.
  induction log as [|[k v] log IH] using rev_ind; [done|].
  rewrite fmap_app, last_assigned_snoc. cbn [fmap list_fmap fst].
  intros Hnot. rewrite bool_decide_eq_false_2.
  - apply IH. intros Hin. apply Hnot, elem_of_app. by left.
  - intros ->. apply Hnot, elem_of_app. right. by apply list_elem_of_singleton.
Qed.

Lemma last_assigned_present key log :
  key ∈ log.*1 → is_Some (last_assigned key log).
Proof.
  induction log as [|[k v] log IH] using rev_ind.
  - by intros ?%elem_of_nil.
  - rewrite fmap_app, last_assigned_snoc. cbn [fmap list_fmap fst].
    case_bool_decide; [by eexists|].
    intros [Hin|Hin%list_elem_of_singleton]%elem_of_app; [by apply IH|done].
Qed.

(** All the assignments of one leaf store the text of its value. *)
Lemma leaf_assignments_value section_c field_c val key :
  key ∈ (leaf_assignments section_c field_c val).*1 →
  last_assigned key (leaf_assignments section_c field_c val) = Some val.
Proof.
  intros Hin. destruct (last_assigned_present _ _ Hin) as [v Hv].
  rewrite Hv. apply last_assigned_elem in Hv. f_equal.
  unfold leaf_assignments in Hv.
  apply elem_of_app in Hv as [Hv|Hv].
  - destruct (_ && _); [|by apply elem_of_nil in Hv].
    apply list_elem_of_singleton in Hv. congruence.
  - destruct (bool_decide _); [|by apply elem_of_nil in Hv].
    apply list_elem_of_singleton in Hv. congruence.
Qed.

Lemma leaf_log_snoc sections raw_field v :
  leaf_log (sections ++ [raw_field], v)
  = leaf_assignments (resolve_section sections)
      (canonical_field (VStr raw_field)) (py_str v).
Proof.
  unfold leaf_log. cbn [fst snd]. by rewrite last_snoc, removelast_last.
Qed.

Lemma field_only_keys section_c field_c val :
  field_c ∈ FIELD_ONLY_SET → section_c ≠ "" →
  (leaf_assignments section_c field_c val).*1
  = [section_c +:+ "." +:+ field_c; field_c].
Proof.
  intros Hin Hsec. unfold leaf_assignments.
  rewrite bool_decide_eq_true_2 by done.
  apply nonempty_true in Hsec. rewrite Hsec.
  pose proof (field_only_nonempty _ Hin) as Hf.
  apply nonempty_true in Hf. by rewrite Hf.
Qed.

(** What the index holds under a key assigned at a leaf. *)
Lemma flatten_json_at_leaf doc before after leaf key :
  leaves [] doc = before ++ leaf :: after →
  leaf.1 ≠ [] →
  key ∈ leaf_keys leaf →
  ∃ flat val,
    flatten_json doc = Some flat
    ∧ flat !! key = Some val
    ∧ (key ∉ after ≫= leaf_keys →
       last_assigned key (leaf_log leaf) = Some val).
Proof.
  intros Hleaves Hpath Hkey.
  assert (assignments [] doc = Some (leaves [] doc ≫= leaf_log)) as Hlog.
  { destruct doc as [v|items]; [|apply assignments_dict_leaves].
    cbn [leaves] in Hleaves. destruct before as [|b before].
    - injection Hleaves as <- _. done.
    - injection Hleaves as _ Hnil. by destruct before. }
  rewrite flatten_json_replay, Hlog, Hleaves.
  rewrite bind_app, bind_cons.
  destruct (last_assigned_present key (leaf_log leaf) Hkey) as [here Hhere].
  destruct (last_assigned key (after ≫= leaf_log)) as [later|] eqn:Hlater.
  - exists (replay ((before ≫= leaf_log) ++ leaf_log leaf ++ after ≫= leaf_log) ∅),
      later.
    split; [done|]. split.
    + by rewrite replay_lookup, !last_assigned_app, Hlater.
    + intros Hnot. exfalso. apply last_assigned_elem in Hlater.
      apply Hnot. apply list_elem_of_bind.
      apply list_elem_of_bind in Hlater as (l & Hin & Hl).
      exists l. split; [|done]. unfold leaf_keys.
      apply list_elem_of_fmap. by exists (key, later).
  - exists (replay ((before ≫= leaf_log) ++ leaf_log leaf ++ after ≫= leaf_log) ∅),
      here.
    split; [done|]. split; [|done].
    by rewrite replay_lookup, !last_assigned_app, Hlater, Hhere.
Qed.

(** C7. Take a leaf of a document whose canonical field is in the
    field-only set and whose resolved section is not empty. Flattening the
    document succeeds, and the index has an entry under the composite key
    ["{section}.{field}"] and an entry under the bare field as well; each
    of the two holds the text of the leaf's value unless a later leaf of
    the walk assigns the same key. In particular
    [{"RECONCILIATION": {"Depreciation": "500"}}] gives ["500"] under both
    ["RECONCILIATION.DEPRECIATION"] and ["DEPRECIATION"]. *)
Theorem flatten_field_only_dual_index :
  (∀ (doc : json) (before after : list (list string * value))
     (sections : list string) (raw_field : string) (v : value),
     leaves [] doc = before ++ (sections ++ [raw_field], v) :: after →
     canonical_field raw_field ∈ FIELD_ONLY_SET →
     resolve_section sections ≠ "" →
     let composite :=
       resolve_section sections +:+ "." +:+ canonical_field raw_field in
     ∃ flat,
       flatten_json doc = Some flat
       ∧ is_Some (flat !! composite)
       ∧ is_Some (flat !! canonical_field raw_field)
       ∧ (composite ∉ after ≫= leaf_keys →
          flat !! composite = Some (py_str v))
       ∧ (canonical_field raw_field ∉ after ≫= leaf_keys →
          flat !! canonical_field raw_field = Some (py_str v)))
  ∧ (∃ flat,
       flatten_json
         (JDict [("RECONCILIATION", JDict [("Depreciation", JLeaf "500")])])
       = Some flat
       ∧ flat !! "RECONCILIATION.DEPRECIATION" = Some "500"
       ∧ flat !! "DEPRECIATION" = Some "500").
Proof.
  split.
  - intros doc before after sections raw_field v Hleaves Hin Hsec composite.
    pose proof (field_only_keys (resolve_section sections)
                  (canonical_field (VStr raw_field)) (py_str v) Hin Hsec)
      as Hkeys.
    assert (∀ key,
              key ∈ [composite; canonical_field (VStr raw_field)] →
              ∃ flat val,
                flatten_json doc = Some flat ∧ flat !! key = Some val
                ∧ (key ∉ after ≫= leaf_keys → val = py_str v)) as Hat.
    { intros key Hkey.
      destruct (flatten_json_at_leaf doc before after
                  (sections ++ [raw_field], v) key Hleaves)
        as (flat & val & Hflat & Hval & Hlast).
      - cbn [fst]. by destruct sections.
      - unfold leaf_keys. by rewrite leaf_log_snoc, Hkeys.
      - exists flat, val. split; [done|]. split; [done|].
        intros Hnot. specialize (Hlast Hnot).
        rewrite leaf_log_snoc, leaf_assignments_value in Hlast
          by (by rewrite Hkeys).
        congruence. }
    destruct (Hat composite) as (flat & val1 & Hflat & Hval1 & Hlast1);
      [apply elem_of_cons; by left|].
    destruct (Hat (canonical_field (VStr raw_field)))
      as (flat' & val2 & Hflat' & Hval2 & Hlast2);
      [apply elem_of_cons; right; by apply list_elem_of_singleton|].
    assert (flat' = flat) as -> by congruence.
    exists flat. split; [done|]. split; [by eexists|]. split; [by eexists|].
    split.
    + intros Hnot. rewrite Hval1. f_equal. by apply Hlast1.
    + intros Hnot. rewrite Hval2. f_equal. by apply Hlast2.
  - exists (<["DEPRECIATION" := "500"]>
              {[ "RECONCILIATION.DEPRECIATION" := "500" ]}).
    split; [vm_compute; reflexivity|]. split; vm_compute; reflexivity.
Qed.

Lemma flatten_field_only_dual_index_witness :
  ∃ flat,
    flatten_json two_depreciations_document = Some flat
    ∧ flat !! "RECONCILIATION.DEPRECIATION" = Some "500"
    ∧ is_Some (flat !! "DEPRECIATION").
Proof.
  destruct (proj1 flatten_field_only_dual_index two_depreciations_document
              [] [(["COST_APPROACH"; "Depreciation"], VStr "700")]
              ["RECONCILIATION"] "Depreciation" (VStr "500"))
    as (flat & Hflat & _ & Hbare & Hcomposite & _).
  - vm_compute. reflexivity.
  - vm_compute. reflexivity.
  - vm_compute. discriminate.
  - exists flat. split; [exact Hflat|]. split; [|exact Hbare].
    apply Hcomposite. vm_compute.
    intros [Heq|[Heq|Hnil]%elem_of_cons]%elem_of_cons.
    + discriminate.
    + discriminate.
    + by apply elem_of_nil in Hnil.
Defined.

(** ** What the two comparable patterns match *)

Lemma take_while_digits ds rest :
  digits ds = true → starts_with_digit rest = false →
  PyStr.take_while PyStr.is_digit (ds +:+ rest) = ds.
Proof.
  intros Hds Hrest. induction ds as [|c ds IH].
  - str_norm. destruct rest as [|c rest]; [done|].
    cbn [starts_with_digit] in Hrest. cbn [PyStr.take_while]. by rewrite Hrest.
  - cbn [digits] in Hds. apply andb_true_iff in Hds as [Hc Hds].
    str_norm. cbn [PyStr.take_while]. by rewrite Hc, IH.
Qed.

Lemma take_while_blanks ws t :
  blanks ws = true → PyStr.take_while PyStr.is_space t = "" →
  PyStr.take_while PyStr.is_space (ws +:+ t) = ws
  ∧ PyStr.drop_while PyStr.is_space (ws +:+ t) = t.
Proof.
  intros Hws Ht. induction ws as [|c ws IH].
  - str_norm. split; [done|].
    rewrite (take_drop_while PyStr.is_space t) at 2. by rewrite Ht.
  - cbn [blanks] in Hws. apply andb_true_iff in Hws as [Hc Hws].
    destruct (IH Hws) as [IH1 IH2].
    str_norm. cbn [PyStr.take_while PyStr.drop_while]. by rewrite Hc, IH1, IH2.
Qed.

Lemma digits_no_space ds rest :
  digits ds = true → ds ≠ "" →
  PyStr.take_while PyStr.is_space (ds +:+ rest) = "".
Proof.
  intros Hds Hne. destruct ds as [|c ds]; [done|].
  cbn [digits] in Hds. apply andb_true_iff in Hds as [Hc _].
  str_norm. cbn [PyStr.take_while]. by rewrite (digit_not_space c).
Qed.

(** [\s*(\d+)] at the start of white space, digits and a rest that does
    not go on with a digit: the group is the digits. *)
Lemma match_spaces_digits_shape ws ds rest :
  blanks ws = true → digits ds = true → ds ≠ "" →
  starts_with_digit rest = false →
  match_spaces_digits (ws +:+ ds +:+ rest)
  = Some (ds, String.length ws + String.length ds).
Proof.
  intros Hws Hds Hne Hrest. unfold match_spaces_digits.
  destruct (take_while_blanks ws (ds +:+ rest) Hws (digits_no_space _ _ Hds Hne))
    as [-> ->].
  rewrite take_while_digits by done.
  apply nonempty_true in Hne. by rewrite Hne.
Qed.

(** [\s*(\d+)] does not match where the white space is not followed by a
    digit. *)
Lemma match_spaces_digits_none rest :
  starts_with_digit (PyStr.drop_while PyStr.is_space rest) = false →
  match_spaces_digits rest = None.
Proof.
  intros Hrest. unfold match_spaces_digits.
  destruct (PyStr.drop_while PyStr.is_space rest) as [|c t]; [done|].
  cbn [starts_with_digit] in Hrest. cbn [PyStr.take_while]. by rewrite Hrest.
Qed.

(** The misspelling pattern on its two spellings. *)
Lemma match_comparabe_shape head ws ds rest :
  head = "COMPARBE" ∨ head = "COMPARABE" →
  blanks ws = true → digits ds = true → ds ≠ "" →
  starts_with_digit rest = false →
  match_comparabe (head +:+ ws +:+ ds +:+ rest) = Some ds.
Proof.
  intros Hhead Hws Hds Hne Hrest.
  pose proof (match_spaces_digits_shape ws ds rest Hws Hds Hne Hrest) as Hm.
  destruct Hhead as [-> | ->].
  - change (match_comparabe ("COMPARBE" +:+ ws +:+ ds +:+ rest))
      with (fst <$> match_spaces_digits (ws +:+ ds +:+ rest)).
    by rewrite Hm.
  - change (match_comparabe ("COMPARABE" +:+ ws +:+ ds +:+ rest))
      with (match fst <$> match_spaces_digits (ws +:+ ds +:+ rest) with
            | Some n => Some n
            | None => None
            end).
    by rewrite Hm.
Qed.

(** ** The substitution on a text in the comparable form *)

Lemma string_length_app a b :
  String.length (a +:+ b) = String.length a + String.length b.
Proof.
  induction a as [|c a IH]; [done|]. str_norm. cbn [String.length]. by rewrite IH.
Qed.

Lemma sub_go_skip a b k :
  sub_comparable_sale_go (String.length a + k) (a +:+ b)
  = sub_comparable_sale_go k b.
Proof.
  induction a as [|c a IH]; [done|]. str_norm.
  cbn [String.length plus sub_comparable_sale_go]. apply IH.
Qed.

Lemma startswith_strip_prefix p s :
  PyStr.startswith s p = false → PyStr.strip_prefix p s = None.
Proof.
  revert s. induction p as [|a p IH]; intros s; [done|].
  destruct s as [|b s]; [done|]. cbn [PyStr.startswith PyStr.strip_prefix].
  case_bool_decide; [|done]. cbn [andb]. apply IH.
Qed.

(** Where the prefix does not occur, the substitution changes nothing. *)
Lemma sub_go_no_occurrence s :
  PyStr.contains "COMPARABLE SALE #" s = false →
  sub_comparable_sale_go 0 s = s.
Proof.
  induction s as [|c s IH]; [done|].
  intros Hs. unfold PyStr.contains in Hs; fold PyStr.contains in Hs.
  apply orb_false_iff in Hs as [Hhere Hs].
  rewrite sub_go_cons. unfold match_comparable_sale.
  rewrite (startswith_strip_prefix _ _ Hhere). cbn [mbind option_bind].
  by rewrite IH.
Qed.

(** Passing over the prefix when it is not the start of a match. *)
Lemma sub_go_prefix t :
  match_spaces_digits t = None →
  sub_comparable_sale_go 0 ("COMPARABLE SALE #" +:+ t)
  = "COMPARABLE SALE #" +:+ sub_comparable_sale_go 0 t.
Proof.
  intros Hm. rewrite (app_cons "C"), sub_go_cons.
  assert (match_comparable_sale (String "C" ("OMPARABLE SALE #" +:+ t)) = None)
    as ->.
  { unfold match_comparable_sale.
    assert (PyStr.strip_prefix "COMPARABLE SALE #"
              (String "C" ("OMPARABLE SALE #" +:+ t)) = Some t) as ->
      by reflexivity.
    cbn [mbind option_bind]. by rewrite Hm. }
  str_norm. by rewrite !sub_go_other by discriminate.
Qed.

(** Replacing a match at the start of the text. *)
Lemma sub_go_match ws ds rest :
  blanks ws = true → digits ds = true → ds ≠ "" →
  starts_with_digit rest = false →
  sub_comparable_sale_go 0 ("COMPARABLE SALE #" +:+ ws +:+ ds +:+ rest)
  = "COMPARABLE SALE #" +:+ ds +:+ sub_comparable_sale_go 0 rest.
Proof.
  intros Hws Hds Hne Hrest.
  pose proof (match_spaces_digits_shape ws ds rest Hws Hds Hne Hrest) as Hm.
  rewrite (app_cons "C"), sub_go_cons.
  assert (match_comparable_sale
            (String "C" ("OMPARABLE SALE #" +:+ ws +:+ ds +:+ rest))
          = Some (ds, 17 + (String.length ws + String.length ds))) as ->.
  { unfold match_comparable_sale.
    assert (PyStr.strip_prefix "COMPARABLE SALE #"
              (String "C" ("OMPARABLE SALE #" +:+ ws +:+ ds +:+ rest))
            = Some (ws +:+ ds +:+ rest)) as -> by reflexivity.
    cbn [mbind option_bind]. by rewrite Hm. }
  do 2 f_equal.
  replace (17 + (String.length ws + String.length ds) - 1)
    with (String.length ("OMPARABLE SALE #" +:+ ws +:+ ds) + 0).
  - rewrite <- (sub_go_skip ("OMPARABLE SALE #" +:+ ws +:+ ds) rest 0).
    by rewrite !string_app_assoc.
  - rewrite !string_length_app. cbn [String.length]. lia.
Qed.

(** C9. The first rule: a label whose normal form is [COMPARBE] or
    [COMPARABE], white space or none, one or more digits, and anything
    that does not go on with a digit, is sent to ["COMPARABLE SALE #"]
    followed by those digits, whatever comes after them and whatever the
    later rules would make of it. The second rule: a label whose normal
    form starts with ["COMPARABLE SALE #"] is given back with the white
    space between the hash sign and the digits removed, and is given back
    as it is when no digits follow; it never falls through to the later
    rules. (The rest of the label is taken not to hold the prefix a second
    time.) In particular ["Comparable Sale #3"] gives
    ["COMPARABLE SALE #3"] and ["comparbe 7"] gives
    ["COMPARABLE SALE #7"]. *)
Theorem canonical_section_comparable :
  (∀ (s : value) (head ws ds rest : string),
     head = "COMPARBE" ∨ head = "COMPARABE" →
     blanks ws = true → digits ds = true → ds ≠ "" →
     starts_with_digit rest = false →
     norm s = head +:+ ws +:+ ds +:+ rest →
     canonical_section s = "COMPARABLE SALE #" +:+ ds)
  ∧ (∀ (s : value) (ws ds rest : string),
       blanks ws = true → digits ds = true → ds ≠ "" →
       starts_with_digit rest = false →
       PyStr.contains "COMPARABLE SALE #" rest = false →
       norm s = "COMPARABLE SALE #" +:+ ws +:+ ds +:+ rest →
       canonical_section s = "COMPARABLE SALE #" +:+ ds +:+ rest)
  ∧ (∀ (s : value) (rest : string),
       starts_with_digit (PyStr.drop_while PyStr.is_space rest) = false →
       PyStr.contains "COMPARABLE SALE #" rest = false →
       norm s = "COMPARABLE SALE #" +:+ rest →
       canonical_section s = "COMPARABLE SALE #" +:+ rest)
  ∧ canonical_section "Comparable Sale #3" = "COMPARABLE SALE #3"
  ∧ canonical_section "comparbe 7" = "COMPARABLE SALE #7".
Proof.
  split; [|split; [|split; [|split]]].
  - intros s head ws ds rest Hhead Hws Hds Hne Hrest Hnorm.
    unfold canonical_section, section_rules. cbn zeta.
    by rewrite Hnorm, match_comparabe_shape.
  - intros s ws ds rest Hws Hds Hne Hrest Hocc Hnorm.
    unfold canonical_section, section_rules. cbn zeta. rewrite Hnorm.
    destruct (comparable_form_rules (ws +:+ ds +:+ rest)) as [-> ->].
    unfold sub_comparable_sale.
    by rewrite sub_go_match, sub_go_no_occurrence.
  - intros s rest Hrest Hocc Hnorm.
    unfold canonical_section, section_rules. cbn zeta. rewrite Hnorm.
    destruct (comparable_form_rules rest) as [-> ->].
    unfold sub_comparable_sale.
    rewrite sub_go_prefix by (by apply match_spaces_digits_none).
    by rewrite sub_go_no_occurrence.
  - vm_compute. reflexivity.
  - vm_compute. reflexivity.
Qed.

Lemma canonical_section_comparable_witness :
  canonical_section "comparabe12 reconciliation" = "COMPARABLE SALE #12"
  ∧ canonical_section "Comparable Sale #  3 (north)"
    = "COMPARABLE SALE #3 (NORTH)"
  ∧ canonical_section "Comparable Sale # reconciliation"
    = "COMPARABLE SALE #RECONCILIATION".
Proof.
  destruct canonical_section_comparable as (Hfirst & Hnumber & Hplain & _).
  split; [|split].
  - apply (Hfirst _ "COMPARABE" "" "12" " RECONCILIATION");
      try (vm_compute; reflexivity); [by right | discriminate].
  - apply (Hnumber _ " " "3" " (NORTH)");
      try (vm_compute; reflexivity); discriminate.
  - apply (Hplain _ "RECONCILIATION"); vm_compute; reflexivity.
Defined.

(** * Further properties of the engine *)

(** ** The normaliser *)

(** X1. Whatever the value, [norm] returns a text without lower-case
    letters in which every white space character is a single blank
    followed by a character that is not white space, and which [strip]
    and the split-and-join of [norm] leave as they are; a value that is
    false in a test ([None], [False], [0], [""]) gives the empty text. *)
Theorem norm_normal_form (v : value) :
  no_lower (norm v) = true
  ∧ spaced (norm v) = true
  ∧ PyStr.strip (norm v) = norm v
  ∧ PyStr.join " " (PyStr.split (norm v)) = norm v
  ∧ (truthy v = false → norm v = "").
Proof.
  pose proof (spaced_norm v) as Hsp. pose proof (lead_norm v) as Hlead.
  split; [apply no_lower_norm|]. split; [done|]. split; [|split].
  - unfold PyStr.strip. by rewrite lstrip_no_lead, rstrip_spaced.
  - fold (collapse (norm v)). by rewrite collapse_spaced, lstrip_no_lead.
  - unfold norm. by intros ->.
Qed.

Lemma synonym_fixed (key f : string) :
  FIELD_SYNONYMS !! key = Some f → canonical_field f = f.
Proof.
  unfold FIELD_SYNONYMS. intros Hf%elem_of_list_to_map_2.
  repeat (apply elem_of_cons in Hf as [[= ? ->]|Hf];
          [vm_compute; reflexivity|]).
  by apply elem_of_nil in Hf.
Qed.

(** X2. [canonical_field] gives its result back when it is applied to it,
    for every label whose canonical field contains no hash sign followed
    by a blank: the targets of the synonym table are not themselves
    synonyms, and a normal form is normalised to itself. *)
Theorem canonical_field_idempotent (s : value) :
  PyStr.contains "# " (canonical_field s) = false →
  canonical_field (canonical_field s) = canonical_field s.
Proof.
  unfold canonical_field at 1 3 4. cbn zeta.
  destruct (FIELD_SYNONYMS !! norm s) as [f|] eqn:Hf; cbn [default].
  - intros _. by eapply synonym_fixed.
  - intros Hhash. unfold canonical_field. cbn zeta.
    rewrite norm_norm by assumption. by rewrite Hf.
Qed.

Lemma canonical_field_idempotent_witness :
  canonical_field (canonical_field "  lot
 size ") = canonical_field "  lot
 size ".
Proof.
  apply (canonical_field_idempotent "  lot
 size ").
  vm_compute. reflexivity.
Defined.

(** ** The flattener *)

Lemma walk_total obj :
  ∀ path flat, path ≠ [] → is_Some (walk path obj flat).
Proof.
  induction obj as [v|items IH] using json_ind'; intros path flat Hpath.
  - cbn [walk]. destruct (last path) as [raw_field|] eqn:Hlast.
    + by eexists.
    + apply last_None in Hlast. done.
  - cbn [walk]. revert flat.
    induction IH as [|[k v] items Hv _ IHitems]; intros flat; [by eexists|].
    cbn [snd] in Hv.
    destruct (Hv (path ++ [k]) flat) as [flat' ->]; [by destruct path|].
    cbn [mbind option_bind]. apply IHitems.
Qed.

Lemma walk_dict_total items :
  ∀ path flat, is_Some (walk path (JDict items) flat).
Proof.
  intros path. cbn [walk].
  induction items as [|[k v] items IH]; intros flat; [by eexists|].
  destruct (walk_total v (path ++ [k]) flat) as [flat' ->]; [by destruct path|].
  cbn [mbind option_bind]. apply IH.
Qed.

(** X3. [flatten_json] raises (the [IndexError] of [path[-1]] on the empty
    path) exactly when the document is not a dictionary; on every
    dictionary, however nested or empty, it returns an index. *)
Theorem flatten_json_fails_on_leaf (doc : json) :
  flatten_json doc = None ↔ ∃ v, doc = JLeaf v.
Proof.
  split.
  - destruct doc as [v|items]; [by exists v|].
    intros Hnone. destruct (walk_dict_total items [] ∅) as [flat Hflat].
    unfold flatten_json in Hnone. congruence.
  - by intros [v ->].
Qed.

(** ** The column detector, continued *)

(** X4. From the first labelled column on, every column gets the section
    of the nearest label at or to the left of it, and that section is not
    empty: the fallback sections are only ever given to columns to the
    left of every label. *)
Theorem sections_persist (ws : worksheet) (c c' : nat) :
  1 ≤ c ≤ c' → c' ≤ max_column ws →
  label ws c ≠ "" →
  ∃ final,
    detect_sections ws = Some final
    ∧ final !! c' = Some (nearest_label ws c')
    ∧ nearest_label ws c' ≠ "".
Proof.
  intros Hc Hc' Hlabel.
  assert (nearest_label ws c' ≠ "") as Hne.
  { assert (nearest_label ws c ≠ "") as Hnc.
    { destruct c as [|c]; [lia|]. cbn [nearest_label].
      pose proof Hlabel as Hl%nonempty_true. by rewrite Hl. }
    exact (nearest_label_persists ws c c' ltac:(lia) Hnc). }
  destruct (detect_sections_total ws) as (final & Hfinal & Hlook).
  exists final. split; [done|]. split; [|done].
  rewrite Hlook, bool_decide_eq_true_2 by lia.
  unfold detected. cbn zeta. apply nonempty_true in Hne. by rewrite Hne.
Qed.

Lemma sections_persist_witness :
  ∃ final,
    detect_sections example_sheet = Some final
    ∧ final !! 4 = Some (nearest_label example_sheet 4)
    ∧ nearest_label example_sheet 4 ≠ "".
Proof.
  apply (sections_persist example_sheet 3 4).
  - lia.
  - cbn. lia.
  - vm_compute. discriminate.
Defined.

(** ** The writer, continued *)

Section writer_frame.
Variables (flat : gmap string string) (new_row : nat) (ws0 : worksheet).

(** What the loop may have done to a cell after the entries [done]. *)
Definition touched (done : colmap_t) (ws : worksheet) (r c : nat) : Prop :=
  cell ws r c = cell ws0 r c
  ∨ (r = new_row
     ∧ non_blank (cell ws0 r c) = false
     ∧ ∃ sec field,
         ((sec, field), c) ∈ done
         ∧ pick_value sec field flat ≠ ""
         ∧ cell ws r c = VStr (pick_value sec field flat)).

Lemma touched_mono done entry ws r c :
  touched done ws r c → touched (done ++ [entry]) ws r c.
Proof.
  intros [?|(? & ? & sec & field & Hin & ? & ?)]; [by left|right].
  split; [done|]. split; [done|]. exists sec, field.
  split; [|done]. apply elem_of_app. by left.
Qed.

Lemma fill_fold_touched (colmap : colmap_t) :
  let st := foldl (fill_step flat new_row) (ws0, 0) colmap in
  (∀ r c, touched colmap st.1 r c) ∧ st.2 ≤ length colmap.
Proof.
  induction colmap as [|[[sec field] col] colmap IH] using rev_ind.
  { split; [|done]. intros r c. by left. }
  cbn zeta in *. rewrite foldl_snoc, length_app.
  destruct (foldl _ _ colmap) as [ws filled]. cbn [fst snd] in IH.
  destruct IH as [IHt IHn]. unfold fill_step.
  destruct (non_blank (cell ws new_row col)) eqn:Hcur.
  { cbn [fst snd length]. split; [|lia]. intros r c. by apply touched_mono. }
  destruct (nonempty _) eqn:Hval.
  2:{ cbn [fst snd length]. split; [|lia]. intros r c. by apply touched_mono. }
  cbn [fst snd length]. split; [|lia]. intros r c.
  pose proof (touched_mono _ (sec, field, col) _ _ _ (IHt r c)) as Hm.
  unfold touched in Hm |- *.
  rewrite cell_set_cell. case_decide as Heq; [|exact Hm].
  injection Heq as <- <-. right. split; [done|]. split.
  - destruct (IHt new_row col) as [<-|(_ & ? & _)]; done.
  - exists sec, field. split; [|split; [by apply nonempty_true|done]].
    apply elem_of_app. right. by apply list_elem_of_singleton.
Qed.

End writer_frame.

(** X5. The fill loop writes at most one cell per entry of the column
    map; a cell it has changed lies in the target row, in a column of the
    map, was blank before, and holds the non-empty text that [pick_value]
    resolves for an entry of that column. Every other cell is as it
    was. *)
Theorem fill_loop_frame
    (flat : gmap string string) (new_row : nat) (colmap : colmap_t)
    (ws : worksheet) (r c : nat) :
  (fill_loop flat new_row colmap ws).2 ≤ length colmap
  ∧ (cell (fill_loop flat new_row colmap ws).1 r c = cell ws r c
     ∨ (r = new_row
        ∧ non_blank (cell ws r c) = false
        ∧ ∃ sec field,
            ((sec, field), c) ∈ colmap
            ∧ pick_value sec field flat ≠ ""
            ∧ cell (fill_loop flat new_row colmap ws).1 r c
              = VStr (pick_value sec field flat))).
Proof.
  destruct (fill_fold_touched flat new_row ws colmap) as [Ht Hn].
  split; [done|]. apply Ht.
Qed.

(** ** Filling a fresh row *)

Section fresh_row.
Variables (flat : gmap string string) (new_row : nat) (ws0 : worksheet).
Hypothesis row_blank : ∀ c, non_blank (cell ws0 new_row c) = false.

(** The text an entry of the column map resolves to. *)
Definition resolved (entry : (string * string) * nat) : string :=
  pick_value entry.1.1 entry.1.2 flat.

Definition written (entry : (string * string) * nat) : value :=
  if nonempty (resolved entry) then VStr (resolved entry)
  else cell ws0 new_row entry.2.

Lemma fill_fold_fresh (colmap : colmap_t) :
  NoDup colmap.*2 →
  let st := foldl (fill_step flat new_row) (ws0, 0) colmap in
  st.2 = length (filter (λ e, resolved e ≠ "") colmap)
  ∧ (∀ entry, entry ∈ colmap → cell st.1 new_row entry.2 = written entry)
  ∧ (∀ r c, r ≠ new_row ∨ c ∉ colmap.*2 → cell st.1 r c = cell ws0 r c).
Proof.
  induction colmap as [|[[sec field] col] colmap IH] using rev_ind.
  { intros _. split; [done|]. split; [|done].
    intros entry Hin. by apply elem_of_nil in Hin. }
  rewrite fmap_app. intros [Hnd [Hcol _]]%NoDup_app.
  specialize (IH Hnd). cbn zeta in *. rewrite foldl_snoc, (filter_app (λ e, resolved e ≠ "")), length_app.
  destruct (foldl _ _ colmap) as [ws filled]. cbn [fst snd] in IH.
  destruct IH as (IHn & IHw & IHf).
  assert (col ∉ colmap.*2) as Hfresh.
  { intros Hin. apply (Hcol col Hin). cbn. apply list_elem_of_singleton. done. }
  assert (cell ws new_row col = cell ws0 new_row col) as Hcur
    by (apply IHf; by right).
  unfold fill_step. rewrite Hcur, row_blank.
  rewrite (filter_cons (λ e, resolved e ≠ "")), filter_nil. unfold resolved at 2. cbn [fst snd].
  destruct (nonempty (pick_value sec field flat)) eqn:Hval.
  - apply nonempty_true in Hval as Hne.
    rewrite decide_True by done. cbn [fst snd length].
    split; [f_equal; exact IHn|]. split.
    + intros entry [Hin|Hin%list_elem_of_singleton]%elem_of_app.
      * rewrite cell_set_cell. case_decide as Heq.
        { injection Heq as Heq. exfalso. apply Hfresh. rewrite Heq.
          apply list_elem_of_fmap. by exists entry. }
        by apply IHw.
      * subst entry. rewrite cell_set_cell, decide_True by done.
        unfold written, resolved. cbn [fst snd]. by rewrite Hval.
    + intros r c Hrc. rewrite cell_set_cell. case_decide as Heq.
      * injection Heq as <- <-. destruct Hrc as [?|Hc]; [done|].
        exfalso. apply Hc. apply elem_of_app. right. cbn.
        by apply list_elem_of_singleton.
      * apply IHf. destruct Hrc as [?|Hc]; [by left|right].
        intros Hin. apply Hc. apply elem_of_app. by left.
  - apply nonempty_false in Hval as He.
    rewrite decide_False by (intros Hn; by apply Hn).
    cbn [fst snd length]. split; [rewrite Nat.add_0_r; exact IHn|]. split.
    + intros entry [Hin|Hin%list_elem_of_singleton]%elem_of_app.
      * by apply IHw.
      * subst entry. unfold written, resolved. cbn [fst snd].
        by rewrite Hval.
    + intros r c Hrc. apply IHf. destruct Hrc as [?|Hc]; [by left|right].
      intros Hin. apply Hc. apply elem_of_app. by left.
Qed.

End fresh_row.

Lemma colmap_columns_NoDup (ws : worksheet) secmap (colmap : colmap_t) :
  (∀ key col,
     lookup_colmap key colmap = Some col
     ↔ key.1 ≠ "" ∧ key.2 ≠ "" ∧ leftmost ws secmap (max_column ws) key col) →
  NoDup colmap.*1 →
  NoDup colmap.*2.
Proof.
  intros Hcm Hnd. apply NoDup_fmap_2_strong; [|by eapply NoDup_fmap_1].
  intros [k1 c1] [k2 c2] Hin1 Hin2. cbn [snd]. intros <-.
  apply elem_of_colmap_lookup in Hin1, Hin2; [|done..].
  apply Hcm in Hin1 as (_ & _ & _ & Hid1 & _).
  apply Hcm in Hin2 as (_ & _ & _ & Hid2 & _). congruence.
Qed.

(** X6. On a sheet that has no cell below its last row, [fill_excel]
    succeeds for every document that flattens: in the row
    [max(max_row + 1, 4)] each column of the column map holds the text
    resolved for it, or nothing when that text is empty; the count
    returned is the number of entries with a non-empty text, and every
    cell outside that row or outside the mapped columns is unchanged. *)
Theorem fill_excel_fresh_row
    (doc : json) (flat : gmap string string) (ws : worksheet) :
  flatten_json doc = Some flat →
  (∀ r c, max_row ws < r → cells ws !! (r, c) = None) →
  ∃ secmap colmap ws',
    detect_sections ws = Some secmap
    ∧ build_colmap ws secmap = Some colmap
    ∧ fill_excel doc ws
      = Some (ws', length (filter (λ e, pick_value e.1.1 e.1.2 flat ≠ "")
                             colmap))
    ∧ (∀ sec field col,
         ((sec, field), col) ∈ colmap →
         cell ws' (new_row_of ws) col
         = if nonempty (pick_value sec field flat)
           then VStr (pick_value sec field flat) else VNone)
    ∧ (∀ r c, r ≠ new_row_of ws ∨ c ∉ colmap.*2 →
              cell ws' r c = cell ws r c).
Proof.
  intros Hflat Hbound.
  destruct (build_colmap_total ws) as (secmap & colmap & Hs & Hc & Hcm & Hnd).
  assert (∀ c, cell ws (new_row_of ws) c = VNone) as Hrow.
  { intros c. unfold cell. rewrite Hbound; [done|]. unfold new_row_of. lia. }
  destruct (fill_fold_fresh flat (new_row_of ws) ws) with (colmap := colmap)
    as (Hn & Hw & Hf).
  { intros c. by rewrite Hrow. }
  { by eapply colmap_columns_NoDup. }
  exists secmap, colmap, (fill_loop flat (new_row_of ws) colmap ws).1.
  split; [done|]. split; [done|]. split; [|split].
  - unfold fill_excel. rewrite Hflat, Hs. cbn [mbind option_bind].
    rewrite Hc. cbn [mbind option_bind]. f_equal.
    unfold fill_loop. destruct (foldl _ _ _) as [w n].
    cbn [fst snd] in Hn |- *. f_equal. exact Hn.
  - intros sec field col Hin. unfold fill_loop.
    pose proof (Hw _ Hin) as Hcell. cbn [fst snd] in Hcell.
    rewrite Hcell. unfold written, resolved. cbn [fst snd].
    by rewrite Hrow.
  - intros r c Hrc. unfold fill_loop. by apply Hf.
Qed.

Lemma fill_excel_fresh_row_witness :
  ∃ secmap colmap ws',
    detect_sections example_sheet = Some secmap
    ∧ build_colmap example_sheet secmap = Some colmap
    ∧ fill_excel (JDict [("SUBJECT", JDict [("State", JLeaf "WI")])])
        example_sheet
      = Some (ws', length (filter (λ e, pick_value e.1.1 e.1.2
                                          {[ "SUBJECT.STATE" := "WI" ]} ≠ "")
                             colmap))
    ∧ (∀ sec field col,
         ((sec, field), col) ∈ colmap →
         cell ws' (new_row_of example_sheet) col
         = if nonempty (pick_value sec field {[ "SUBJECT.STATE" := "WI" ]})
           then VStr (pick_value sec field {[ "SUBJECT.STATE" := "WI" ]})
           else VNone)
    ∧ (∀ r c, r ≠ new_row_of example_sheet ∨ c ∉ colmap.*2 →
              cell ws' r c = cell example_sheet r c).
Proof.
  apply (fill_excel_fresh_row
           (JDict [("SUBJECT", JDict [("State", JLeaf "WI")])])).
  - vm_compute. reflexivity.
  - intros r c Hr. unfold example_sheet in *. cbn [cells max_row] in *.
    rewrite !lookup_insert_ne by (intros [= <- _]; lia). apply lookup_empty.
Defined.

Example fill_excel_state :
  (λ res, (cell res.1 4 3, res.2))
    <$> fill_excel (JDict [("SUBJECT", JDict [("State", JLeaf "WI")])])
          example_sheet
  = Some (VStr "WI", 1).
Proof. vm_compute. reflexivity. Qed.

(** ** Page blocks and merged blocks *)

Lemma split_into_blocks_partition_aux (first lst : Z) (mid : list Z) :
  NoDup (first :: mid ++ [lst]) →
  filter (λ p, p ∉ [first] ++ [lst]) (first :: mid ++ [lst]) = mid.
Proof.
  intros [Hfirst Hnd]%NoDup_cons. apply NoDup_app in Hnd as (_ & Hmid & _).
  rewrite filter_cons_False
    by (intros Hn; apply Hn, elem_of_app; left; by apply list_elem_of_singleton).
  rewrite (filter_app (λ p, p ∉ [first] ++ [lst])).
  rewrite (filter_cons_False _ lst)
    by (intros Hn; apply Hn, elem_of_app; right; by apply list_elem_of_singleton).
  rewrite filter_nil, app_nil_r.
  assert (∀ p, p ∈ mid → p ∉ [first] ++ [lst]) as Hkeep.
  { intros p Hp [Heq|Heq]%elem_of_app; apply list_elem_of_singleton in Heq;
      subst p.
    - apply Hfirst, elem_of_app. by left.
    - apply (Hmid lst Hp). by apply list_elem_of_singleton. }
  clear -Hkeep. induction mid as [|p mid IH]; [done|].
  rewrite filter_cons_True by (apply Hkeep, elem_of_cons; by left).
  f_equal. apply IH. intros q Hq. apply Hkeep, elem_of_cons. by right.
Qed.

Lemma split_into_blocks_concat (all_pages : list Z) :
  NoDup all_pages →
  (split_into_blocks all_pages).1.1 ++ (split_into_blocks all_pages).1.2
    ++ (split_into_blocks all_pages).2 = all_pages.
Proof.
  intros Hnd. destruct all_pages as [|first [|second rest]]; [done|done|].
  destruct (exists_last (l := second :: rest)) as (mid & lst & Hlast); [done|].
  cbn [split_into_blocks]. rewrite Hlast in *.
  assert (last (first :: mid ++ [lst]) = Some lst) as ->
    by (rewrite app_comm_cons; apply last_snoc).
  cbn [default fst snd]. by rewrite split_into_blocks_partition_aux.
Qed.

(** X7. On pages without repetition the three blocks of
    [split_into_blocks], one after the other, are the pages given: no page
    is lost or doubled. Subject and cost have at most one page each, and
    from two pages on they are the first and the last page. *)
Theorem split_into_blocks_partition (all_pages : list Z) :
  NoDup all_pages →
  let '(subject, sales, cost) := split_into_blocks all_pages in
  subject ++ sales ++ cost = all_pages
  ∧ length subject ≤ 1 ∧ length cost ≤ 1
  ∧ (2 ≤ length all_pages →
     Some subject = (λ p, [p]) <$> head all_pages
     ∧ Some cost = (λ p, [p]) <$> last all_pages).
Proof.
  intros Hnd. destruct all_pages as [|first [|second rest]].
  - cbn. repeat split; lia.
  - cbn. repeat split; lia.
  - destruct (exists_last (l := second :: rest)) as (mid & lst & Hlast); [done|].
    cbn [split_into_blocks]. rewrite Hlast in *.
    assert (last (first :: mid ++ [lst]) = Some lst) as ->
      by (rewrite app_comm_cons; apply last_snoc).
    cbn [default]. rewrite split_into_blocks_partition_aux by done.
    split; [done|]. split; [cbn; lia|]. split; [cbn; lia|]. done.
Qed.

Lemma dict_get_None k (d : list (string * json)) :
  dict_get k d = None ↔ k ∉ d.*1.
Proof.
  induction d as [|[k' v] d IH]; cbn [dict_get fmap list_fmap fst].
  - split; [intros _ Hin; by apply elem_of_nil in Hin|done].
  - rewrite not_elem_of_cons. case_bool_decide as Heq.
    + split; [done|]. intros [Hne _]. by destruct Hne.
    + rewrite IH. split; [intros ?; split; [done|done]|by intros [_ ?]].
Qed.

Lemma dict_get_set k k' v d :
  dict_get k (dict_set k' v d) = if bool_decide (k' = k) then Some v else dict_get k d.
Proof.
  induction d as [|[k0 v0] d IH]; cbn [dict_set dict_get].
  - done.
  - destruct (bool_decide (k0 = k')) eqn:H0; cbn [dict_get].
    + apply bool_decide_eq_true in H0 as ->.
      by destruct (bool_decide (k' = k)).
    + rewrite IH. apply bool_decide_eq_false in H0.
      destruct (bool_decide (k0 = k)) eqn:H1; [|done].
      apply bool_decide_eq_true in H1 as ->.
      by rewrite bool_decide_eq_false_2 by done.
Qed.

Lemma dict_set_keys k v d k' :
  k' ∈ (dict_set k v d).*1 → k' = k ∨ k' ∈ d.*1.
Proof.
  induction d as [|[k0 v0] d IH]; cbn [dict_set fmap list_fmap fst].
  - intros ->%list_elem_of_singleton. by left.
  - case_bool_decide as Heq; cbn [fmap list_fmap fst]; rewrite !elem_of_cons.
    + intros [->|?]; [by left|right; by right].
    + intros [->|Hin]; [right; by left|].
      destruct (IH Hin) as [?|?]; [by left|right; by right].
Qed.

Lemma dict_set_NoDup k v d : NoDup d.*1 → NoDup (dict_set k v d).*1.
Proof.
  induction d as [|[k0 v0] d IH]; cbn [dict_set fmap list_fmap fst].
  - intros _. apply NoDup_singleton.
  - intros [Hk0 Hnd]%NoDup_cons.
    case_bool_decide as Heq; cbn [fmap list_fmap fst]; apply NoDup_cons.
    + by subst k0.
    + split; [|by apply IH]. intros [->|Hin]%dict_set_keys; done.
Qed.

Lemma merge_item_get k merged k' v :
  dict_get k (merge_item merged (k', v))
  = if bool_decide (k' = k)
    then Some (from_option (λ cur, merge_value cur v) v (dict_get k merged))
    else dict_get k merged.
Proof.
  unfold merge_item. case_bool_decide as Heq.
  - subst k'. destruct (dict_get k merged) as [cur|] eqn:Hcur; cbn.
    + destruct cur as [x|ci], v as [y|vi]; cbn; try done.
      by rewrite dict_get_set, bool_decide_eq_true_2.
    + by rewrite dict_get_set, bool_decide_eq_true_2.
  - destruct (dict_get k' merged) as [cur|] eqn:Hcur.
    + destruct cur as [x|ci], v as [y|vi]; try done.
      by rewrite dict_get_set, bool_decide_eq_false_2.
    + by rewrite dict_get_set, bool_decide_eq_false_2.
Qed.

Lemma merge_item_NoDup merged kv :
  NoDup merged.*1 → NoDup (merge_item merged kv).*1.
Proof.
  intros Hnd. destruct kv as [k v]. unfold merge_item.
  destruct (dict_get k merged) as [[x|ci]|]; [done| |by apply dict_set_NoDup].
  destruct v; [done|by apply dict_set_NoDup].
Qed.

Lemma merge_items_get k items :
  NoDup items.*1 →
  ∀ merged,
    dict_get k (foldl merge_item merged items)
    = match dict_get k items with
      | None => dict_get k merged
      | Some v =>
          Some (from_option (λ cur, merge_value cur v) v (dict_get k merged))
      end.
Proof.
  induction items as [|[k' v'] items IH]; [done|].
  cbn [fmap list_fmap fst]. intros [Hk' Hnd]%NoDup_cons merged.
  cbn [foldl dict_get]. rewrite IH by done. rewrite merge_item_get.
  case_bool_decide as Heq; [|done]. subst k'.
  apply dict_get_None in Hk'. by rewrite Hk'.
Qed.

Lemma merge_items_NoDup items :
  ∀ merged, NoDup merged.*1 → NoDup (foldl merge_item merged items).*1.
Proof.
  induction items as [|kv items IH]; intros merged Hnd; [done|].
  cbn [foldl]. by apply IH, merge_item_NoDup.
Qed.

(** The value under a key after the values [vs] have come, one by one. *)
Definition merged_value (start : option json) (vs : list json) : option json :=
  foldl (λ o v, Some (from_option (λ cur, merge_value cur v) v o)) start vs.

Lemma merge_fold_get k dicts :
  Forall distinct_keys dicts →
  ∀ merged,
    dict_get k (foldl merge_one merged dicts)
    = merged_value (dict_get k merged) (values_under k dicts).
Proof.
  induction 1 as [|d dicts Hd _ IH]; intros merged; [done|].
  cbn [foldl]. rewrite IH. unfold values_under. cbn [omap list_omap].
  destruct d as [x|items]; [done|]. cbn [merge_one distinct_keys] in *.
  rewrite merge_items_get by done.
  by destruct (dict_get k items).
Qed.

Lemma merged_value_first v vs :
  merged_value None (v :: vs) = Some (foldl merge_value v vs).
Proof.
  unfold merged_value. cbn [foldl from_option].
  revert v. induction vs as [|w vs IH]; intros v; [done|].
  cbn [foldl from_option]. apply IH.
Qed.

(** X8. The dictionary [merge_dicts] returns has pairwise distinct keys,
    and under a key it holds the value of the first dictionary that has
    the key, into which the values of the later dictionaries are merged
    one after the other by [merge_value]; arguments that are not
    dictionaries play no part. *)
Theorem merge_dicts_lookup (dicts : list json) (k : string) :
  Forall distinct_keys dicts →
  NoDup (merge_dicts dicts).*1
  ∧ dict_get k (merge_dicts dicts)
    = match values_under k dicts with
      | [] => None
      | v :: vs => Some (foldl merge_value v vs)
      end.
Proof.
  intros Hd. unfold merge_dicts. split.
  - clear Hd. assert (NoDup ([] : list (string * json)).*1) as Hnil
      by constructor.
    revert Hnil. generalize ([] : list (string * json)).
    induction dicts as [|d dicts IH]; intros merged Hnd; [done|].
    cbn [foldl]. apply IH. destruct d; [done|]. by apply merge_items_NoDup.
  - rewrite merge_fold_get by done. cbn [dict_get].
    destruct (values_under k dicts) as [|v vs]; [done|].
    apply merged_value_first.
Qed.

Lemma dict_update_get f (v_items : list (string * json)) :
  NoDup v_items.*1 →
  ∀ cur_items,
    dict_get f (dict_update cur_items v_items)
    = match dict_get f v_items with
      | Some x => Some x
      | None => dict_get f cur_items
      end.
Proof.
  unfold dict_update. induction v_items as [|[k x] v_items IH]; [done|].
  cbn [fmap list_fmap fst]. intros [Hk Hnd]%NoDup_cons cur_items.
  cbn [foldl dict_get fst snd]. rewrite IH by done.
  rewrite dict_get_set. case_bool_decide as Heq; [|done]. subst k.
  apply dict_get_None in Hk. by rewrite Hk.
Qed.

(** Merging a later value into the one held: when both are
    dictionaries the fields are updated, a field of the later dictionary
    replacing one of the same name; in every other case the value held
    stays, so a scalar that came first is never replaced. *)
Theorem merge_value_cases (cur v : json) :
  match cur, v with
  | JDict cur_items, JDict v_items =>
      ∃ items,
        merge_value cur v = JDict items
        ∧ (NoDup v_items.*1 →
           ∀ f, dict_get f items
                = match dict_get f v_items with
                  | Some x => Some x
                  | None => dict_get f cur_items
                  end)
  | _, _ => merge_value cur v = cur
  end.
Proof.
  destruct cur as [x|cur_items], v as [y|v_items]; try done.
  eexists. split; [done|]. intros Hnd f. by apply dict_update_get.
Qed.

(** ** A failed block among the merged ones *)

Lemma dict_get_app k (x y : list (string * json)) :
  dict_get k (x ++ y)
  = match dict_get k x with Some v => Some v | None => dict_get k y end.
Proof.
  induction x as [|[k' v] x IH]; [done|]. cbn [app dict_get].
  by destruct (bool_decide (k' = k)).
Qed.

Lemma dict_set_app k v (x y : list (string * json)) :
  dict_set k v (x ++ y)
  = match dict_get k x with
    | Some _ => dict_set k v x ++ y
    | None => x ++ dict_set k v y
    end.
Proof.
  induction x as [|[k' v'] x IH]; [done|]. cbn [app dict_set dict_get].
  destruct (bool_decide (k' = k)); [done|]. rewrite IH.
  by destruct (dict_get k x).
Qed.

Lemma dict_set_fresh k v (d : list (string * json)) :
  dict_get k d = None → dict_set k v d = d ++ [(k, v)].
Proof.
  induction d as [|[k' v'] d IH]; [done|]. cbn [dict_get dict_set app].
  destruct (bool_decide (k' = k)); [done|]. by intros ->%IH.
Qed.

Section failed_block.
Variable raw_output : string.

(** [m'] is [m] with the items of the fallback document put in somewhere. *)
Definition with_error (m m' : list (string * json)) : Prop :=
  ∃ a b, m = a ++ b ∧ m' = a ++ error_items raw_output ++ b.

Lemma error_items_get k :
  k ≠ "error" → k ≠ "raw_output" → dict_get k (error_items raw_output) = None.
Proof.
  intros H1 H2. cbn. by rewrite !bool_decide_eq_false_2 by done.
Qed.

Lemma with_error_get k m m' :
  k ≠ "error" → k ≠ "raw_output" →
  with_error m m' → dict_get k m' = dict_get k m.
Proof.
  intros H1 H2 (a & b & -> & ->).
  by rewrite !dict_get_app, error_items_get.
Qed.

Lemma with_error_set k v m m' :
  k ≠ "error" → k ≠ "raw_output" →
  with_error m m' → with_error (dict_set k v m) (dict_set k v m').
Proof.
  intros H1 H2 (a & b & -> & ->). rewrite !dict_set_app.
  destruct (dict_get k a) eqn:Ha.
  - by exists (dict_set k v a), b.
  - rewrite error_items_get by done.
    by exists a, (dict_set k v b).
Qed.

Lemma with_error_item kv m m' :
  kv.1 ≠ "error" → kv.1 ≠ "raw_output" →
  with_error m m' → with_error (merge_item m kv) (merge_item m' kv).
Proof.
  destruct kv as [k v]. cbn [fst]. intros H1 H2 Hm. unfold merge_item.
  rewrite (with_error_get k m m') by done.
  destruct (dict_get k m) as [[x|ci]|]; [done| |by apply with_error_set].
  destruct v; [done|by apply with_error_set].
Qed.

Lemma with_error_items items :
  "error" ∉ items.*1 → "raw_output" ∉ items.*1 →
  ∀ m m', with_error m m' →
          with_error (foldl merge_item m items) (foldl merge_item m' items).
Proof.
  induction items as [|[k v] items IH]; [done|].
  cbn [fmap list_fmap fst]. intros [H1 H1']%not_elem_of_cons
    [H2 H2']%not_elem_of_cons m m' Hm.
  cbn [foldl]. apply IH; [done..|]. apply with_error_item; cbn [fst]; done.
Qed.

Lemma with_error_fold dicts :
  Forall no_error_keys dicts →
  ∀ m m', with_error m m' →
          with_error (foldl merge_one m dicts) (foldl merge_one m' dicts).
Proof.
  induction 1 as [|d dicts Hd _ IH]; intros m m' Hm; [done|].
  cbn [foldl]. apply IH. destruct d as [x|items]; [done|].
  destruct Hd as [H1 H2]. by apply with_error_items.
Qed.

Lemma merge_keys_items items k :
  ∀ m, k ∈ (foldl merge_item m items).*1 → k ∈ m.*1 ∨ k ∈ items.*1.
Proof.
  induction items as [|[k' v] items IH]; intros m; [by left|].
  cbn [foldl fmap list_fmap fst]. intros [Hin|Hin]%IH.
  - unfold merge_item in Hin.
    destruct (dict_get k' m) as [[x|ci]|]; [by left| |].
    + destruct v; [by left|].
      apply dict_set_keys in Hin as [->|?]; [right; by left|by left].
    + apply dict_set_keys in Hin as [->|?]; [right; by left|by left].
  - right. by right.
Qed.

Lemma merge_keys_fold dicts k :
  Forall no_error_keys dicts →
  (k = "error" ∨ k = "raw_output") →
  ∀ m, k ∉ m.*1 → k ∉ (foldl merge_one m dicts).*1.
Proof.
  intros Hd Hk. induction Hd as [|d dicts Hd _ IH]; intros m Hm; [done|].
  cbn [foldl]. apply IH. destruct d as [x|items]; [done|].
  destruct Hd as [H1 H2]. intros [?|?]%merge_keys_items; [done|].
  destruct Hk as [->| ->]; done.
Qed.

End failed_block.

Lemma walk_dict_app path (x y : list (string * json)) :
  ∀ flat,
    walk path (JDict (x ++ y)) flat
    = walk path (JDict x) flat ≫= walk path (JDict y).
Proof.
  cbn [walk]. induction x as [|[k v] x IH]; intros flat; [done|].
  cbn [app]. destruct (walk (path ++ [k]) v flat) as [flat'|]; [|done].
  cbn [mbind option_bind]. apply IH.
Qed.

Lemma walk_error_items raw_output flat :
  walk [] (JDict (error_items raw_output)) flat = Some flat.
Proof.
  unfold error_items. cbn [walk].
  change ([] ++ ["error"]) with (["error" : string]).
  change ([] ++ ["raw_output"]) with (["raw_output" : string]).
  cbn [last removelast mbind option_bind].
  replace (canonical_field (VStr "error")) with "ERROR"
    by (vm_compute; reflexivity).
  replace (canonical_field (VStr "raw_output")) with "RAW_OUTPUT"
    by (vm_compute; reflexivity).
  reflexivity.
Qed.

(** X9. A block that failed to parse changes nothing: when the other
    arguments have no key [error] or [raw_output], merging the fallback
    document between them gives the same index (or the same failure) as
    merging them alone. *)
Theorem failed_block_changes_nothing
    (before after : list json) (raw_output : string) :
  Forall no_error_keys (before ++ after) →
  flatten_json
    (JDict (merge_dicts (before ++ error_document raw_output :: after)))
  = flatten_json (JDict (merge_dicts (before ++ after))).
Proof.
  intros [Hb Ha]%Forall_app. unfold merge_dicts. rewrite !foldl_app.
  change (foldl merge_one ?m (error_document raw_output :: after))
    with (foldl merge_one (merge_one m (error_document raw_output)) after).
  set (m1 := foldl merge_one [] before).
  assert ("error" ∉ m1.*1) as He
    by (apply merge_keys_fold; [done|by left|by intros ?%elem_of_nil]).
  assert ("raw_output" ∉ m1.*1) as Hr
    by (apply merge_keys_fold; [done|by right|by intros ?%elem_of_nil]).
  assert (merge_one m1 (error_document raw_output)
          = m1 ++ error_items raw_output) as ->.
  { unfold error_document, merge_one. cbn [foldl]. unfold merge_item at 2.
    apply dict_get_None in He. rewrite He, (dict_set_fresh _ _ _ He).
    unfold merge_item.
    assert (dict_get "raw_output"
              (m1 ++ [("error", JLeaf "Invalid JSON returned from model")])
            = None) as Hr'.
    { rewrite dict_get_app. apply dict_get_None in Hr. by rewrite Hr. }
    rewrite Hr', (dict_set_fresh _ _ _ Hr'). by rewrite <- app_assoc. }
  destruct (with_error_fold raw_output after Ha m1
              (m1 ++ error_items raw_output)) as (a & b & -> & ->).
  { exists m1, []. by rewrite !app_nil_r. }
  unfold flatten_json. rewrite !walk_dict_app.
  destruct (walk [] (JDict a) ∅) as [flat|]; [|done].
  cbn [mbind option_bind]. by rewrite walk_dict_app, walk_error_items.
Qed.

(** ** Page ranges *)

Example parse_ex1 : parse_pages_input "2-5,8" = Some [2; 3; 4; 5; 8]%Z.
Proof. vm_compute. reflexivity. Qed.
Example parse_ex2 : parse_pages_input " 8, 2-4  3 ,," = Some [2; 3; 4; 8]%Z.
Proof. vm_compute. reflexivity. Qed.
Example parse_ex3 : parse_pages_input "5-2" = Some [].
Proof. vm_compute. reflexivity. Qed.
Example parse_ex4 : parse_pages_input "-3" = None.
Proof. vm_compute. reflexivity. Qed.
Example parse_ex5 : parse_pages_input "" = Some [].
Proof. vm_compute. reflexivity. Qed.
Example parse_ex6 : parse_pages_input "1_0, +7,0012" = Some [7; 10; 12]%Z.
Proof. vm_compute. reflexivity. Qed.
Example resplit1 : re_split_separators false ",a,,b," = [""; "a"; "b"; ""].
Proof. vm_compute. reflexivity. Qed.

Lemma sorted_lt_of_le (l : list Z) :
  StronglySorted Z.le l → NoDup l → StronglySorted Z.lt l.
Proof.
  induction 1 as [|x l Hl IH Hx]; intros Hnd; [constructor|].
  apply NoDup_cons in Hnd as [Hx' Hnd]. constructor; [by apply IH|].
  apply Forall_forall. intros y Hy.
  assert (x ≠ y) by (intros ->; done).
  rewrite Forall_forall in Hx. specialize (Hx y Hy). lia.
Qed.

Lemma sorted_set_spec (pages : list Z) :
  StronglySorted Z.lt (sorted_set pages)
  ∧ NoDup (sorted_set pages)
  ∧ ∀ p, p ∈ sorted_set pages ↔ p ∈ pages.
Proof.
  unfold sorted_set.
  assert (NoDup (merge_sort Z.le (remove_dups pages))) as Hnd.
  { rewrite merge_sort_Permutation. apply NoDup_remove_dups. }
  split; [|split; [done|]].
  - apply sorted_lt_of_le; [|done]. apply StronglySorted_merge_sort; apply _.
  - intros p. rewrite merge_sort_Permutation. apply elem_of_remove_dups.
Qed.

Lemma parse_parts_None parts :
  ∀ pages,
    parse_parts parts pages = None
    ↔ ∃ part, part ∈ parts ∧ part ≠ "" ∧ parse_page_list_single part = None.
Proof.
  induction parts as [|part parts IH]; intros pages; cbn [parse_parts].
  - split; [done|]. intros (part & Hin & _). by apply elem_of_nil in Hin.
  - destruct (nonempty part) eqn:Hne.
    + apply nonempty_true in Hne.
      destruct (parse_page_list_single part) as [more|] eqn:Hpart;
        cbn [mbind option_bind].
      * rewrite IH. split.
        -- intros (p & Hin & ? & ?). exists p. split; [|done].
           apply elem_of_cons. by right.
        -- intros (p & [->|Hin]%elem_of_cons & ? & ?); [congruence|].
           by exists p.
      * split; [|done]. intros _. exists part.
        split; [apply elem_of_cons; by left|done].
    + apply nonempty_false in Hne. rewrite IH. split.
      * intros (p & Hin & ? & ?). exists p. split; [|done].
        apply elem_of_cons. by right.
      * intros (p & [->|Hin]%elem_of_cons & ? & ?); [done|]. by exists p.
Qed.

(** X10. [parse_pages_input] raises exactly when one of the non-empty
    parts between commas and white space fails to parse; empty parts are
    passed over. *)
Theorem parse_pages_input_fails (pages_input : string) :
  parse_pages_input pages_input = None
  ↔ ∃ part,
      part ∈ re_split_separators false (PyStr.strip pages_input)
      ∧ part ≠ ""
      ∧ parse_page_list_single part = None.
Proof.
  unfold parse_pages_input. rewrite <- (parse_parts_None _ []).
  destruct (parse_parts _ _); cbn [mbind option_bind]; split; done.
Qed.

(** X11. The pages [parse_pages_input] returns are strictly increasing,
    hence without repetition, and [split_into_blocks] cuts them into three
    blocks that, one after the other, give them back. *)
Theorem parse_pages_input_blocks (pages_input : string) (pages : list Z) :
  parse_pages_input pages_input = Some pages →
  StronglySorted Z.lt pages
  ∧ NoDup pages
  ∧ (split_into_blocks pages).1.1 ++ (split_into_blocks pages).1.2
      ++ (split_into_blocks pages).2 = pages.
Proof.
  unfold parse_pages_input.
  destruct (parse_parts _ _) as [raw|]; [|done]. cbn [mbind option_bind].
  intros [= <-]. destruct (sorted_set_spec raw) as (Hs & Hnd & _).
  split; [done|]. split; [done|].
  by apply split_into_blocks_concat.
Qed.

Lemma separators_only_lstrip s :
  separators_only s = true → separators_only (PyStr.lstrip s) = true.
Proof.
  induction s as [|c t IH]; [done|]. cbn [separators_only PyStr.lstrip].
  intros [Hc Ht]%andb_true_iff. destruct (PyStr.is_space c); [by apply IH|].
  cbn [separators_only]. by rewrite Hc, Ht.
Qed.

Lemma separators_only_rstrip s :
  separators_only s = true → separators_only (PyStr.rstrip s) = true.
Proof.
  induction s as [|c t IH]; [done|]. cbn [separators_only PyStr.rstrip].
  intros [Hc Ht]%andb_true_iff. specialize (IH Ht).
  destruct (PyStr.rstrip t) as [|d r].
  - destruct (PyStr.is_space c); [done|]. cbn [separators_only].
    by rewrite Hc.
  - cbn [separators_only] in *. by rewrite Hc, IH.
Qed.

Lemma re_split_separators_only s :
  separators_only s = true →
  ∀ in_sep, Forall (λ part, part = "") (re_split_separators in_sep s).
Proof.
  induction s as [|c t IH]; intros Hs in_sep.
  - by repeat constructor.
  - cbn [separators_only] in Hs. apply andb_true_iff in Hs as [Hc Ht].
    cbn [re_split_separators]. rewrite Hc.
    destruct in_sep; [by apply IH|]. constructor; [done|by apply IH].
Qed.

Lemma parse_parts_empty parts pages :
  Forall (λ part, part = "") parts → parse_parts parts pages = Some pages.
Proof. induction 1 as [|part parts -> _ IH]; [done|]. exact IH. Qed.

(** X12. An input made of commas and white space only (the empty input
    too) gives no page and no error, and no page gives three empty
    blocks. *)
Theorem parse_pages_input_blank (pages_input : string) :
  separators_only pages_input = true →
  parse_pages_input pages_input = Some []
  ∧ split_into_blocks [] = ([], [], []).
Proof.
  intros Hs. split; [|done]. unfold parse_pages_input.
  rewrite parse_parts_empty; [done|].
  apply re_split_separators_only. unfold PyStr.strip.
  by apply separators_only_rstrip, separators_only_lstrip.
Qed.

Lemma parse_pages_input_blank_witness :
  parse_pages_input " , ,,  " = Some []
  ∧ split_into_blocks [] = ([], [], []).
Proof. apply (parse_pages_input_blank " , ,,  "). reflexivity. Defined.

Lemma contains_cons p c t :
  PyStr.contains p (String c t)
  = PyStr.startswith (String c t) p || PyStr.contains p t.
Proof. reflexivity. Qed.

Lemma split_once_app (a b : string) :
  PyStr.contains "-" a = false →
  PyStr.contains "-" (a +:+ "-" +:+ b) = true
  ∧ split_once "-" (a +:+ "-" +:+ b) = Some (a, b).
Proof.
  induction a as [|c a IH]; [done|]. rewrite contains_cons.
  intros [Hc Ha]%orb_false_iff. destruct (IH Ha) as [IH1 IH2].
  rewrite !(app_cons c a), contains_cons, IH1, orb_true_r. split; [done|].
  cbn [PyStr.startswith] in Hc. rewrite andb_true_r in Hc.
  apply bool_decide_eq_false in Hc.
  cbn [split_once]. rewrite bool_decide_eq_false_2 by congruence.
  by rewrite IH2.
Qed.

Lemma seqZ_sorted (n : nat) :
  ∀ m len, Z.to_nat len = n → StronglySorted Z.lt (seqZ m len).
Proof.
  induction n as [|n IH]; intros m len Hlen.
  - rewrite seqZ_nil by lia. constructor.
  - rewrite seqZ_cons by lia. constructor.
    + apply IH. lia.
    + apply Forall_seqZ. intros p Hp. lia.
Qed.

(** X13. A part [a-b] whose bounds parse, the first without a minus sign,
    gives the pages from [a] to [b], both included, in increasing order;
    when [b] is below [a] it gives no page and no error. *)
Theorem parse_page_range (a b : string) (x y : Z) :
  PyStr.contains "-" a = false →
  py_int a = Some x → py_int b = Some y →
  ∃ pages,
    parse_page_list_single (a +:+ "-" +:+ b) = Some pages
    ∧ StronglySorted Z.lt pages
    ∧ ∀ p, p ∈ pages ↔ (x ≤ p ≤ y)%Z.
Proof.
  intros Ha Hx Hy. destruct (split_once_app a b Ha) as [Hc Hs].
  unfold parse_page_list_single. rewrite Hc, Hs. cbn [mbind option_bind].
  rewrite Hx, Hy. cbn [mbind option_bind]. eexists. split; [done|].
  unfold py_range. split.
  - by eapply seqZ_sorted.
  - intros p. rewrite elem_of_seqZ. lia.
Qed.

Lemma parse_page_range_witness :
  ∃ pages,
    parse_page_list_single ("2" +:+ "-" +:+ "5") = Some pages
    ∧ StronglySorted Z.lt pages
    ∧ ∀ p, p ∈ pages ↔ (2 ≤ p ≤ 5)%Z.
Proof.
  apply (parse_page_range "2" "5" 2 5); reflexivity.
Defined.

(** ** Instances and corollaries *)

Lemma split_into_blocks_partition_witness :
  let '(subject, sales, cost) := split_into_blocks [2; 3; 5; 8]%Z in
  subject ++ sales ++ cost = [2; 3; 5; 8]%Z
  ∧ length subject ≤ 1 ∧ length cost ≤ 1
  ∧ (2 ≤ length [2; 3; 5; 8]%Z →
     Some subject = (λ p, [p]) <$> head [2; 3; 5; 8]%Z
     ∧ Some cost = (λ p, [p]) <$> last [2; 3; 5; 8]%Z).
Proof.
  apply (split_into_blocks_partition [2; 3; 5; 8]%Z).
  apply (bool_decide_unpack _). vm_compute. exact I.
Defined.

Lemma distinct_keys_blocks :
  Forall distinct_keys [subject_block; JLeaf VNone; sales_block].
Proof.
  repeat (apply Forall_cons; split); try apply Forall_nil; try exact I;
    cbn [distinct_keys subject_block sales_block];
    apply (bool_decide_unpack _); vm_compute; exact I.
Qed.

Lemma merge_dicts_lookup_witness :
  NoDup (merge_dicts [subject_block; JLeaf VNone; sales_block]).*1
  ∧ dict_get "SUBJECT" (merge_dicts [subject_block; JLeaf VNone; sales_block])
    = match values_under "SUBJECT" [subject_block; JLeaf VNone; sales_block] with
      | [] => None
      | v :: vs => Some (foldl merge_value v vs)
      end.
Proof.
  apply (merge_dicts_lookup [subject_block; JLeaf VNone; sales_block] "SUBJECT").
  apply distinct_keys_blocks.
Defined.

Example merge_blocks :
  merge_dicts [subject_block; JLeaf VNone; sales_block]
  = [ ("SUBJECT", JDict [ ("State", JLeaf "MN"); ("City", JLeaf "Madison") ]);
      ("SITE", JLeaf "none") ].
Proof. vm_compute. reflexivity. Qed.

Lemma failed_block_changes_nothing_witness :
  flatten_json
    (JDict (merge_dicts ([subject_block] ++ error_document "oops" :: [sales_block])))
  = flatten_json (JDict (merge_dicts ([subject_block] ++ [sales_block]))).
Proof.
  apply (failed_block_changes_nothing [subject_block] [sales_block] "oops").
  repeat (apply Forall_cons; split); try apply Forall_nil;
    cbn [no_error_keys subject_block sales_block];
    (split; apply (bool_decide_unpack _); vm_compute; exact I).
Defined.

Lemma merge_error_again raw_output raw_output' :
  merge_one (error_items raw_output) (error_document raw_output')
  = error_items raw_output.
Proof. reflexivity. Qed.

Lemma merge_errors_fold raw_output (others : list string) :
  foldl merge_one (error_items raw_output) (error_document <$> others)
  = error_items raw_output.
Proof.
  induction others as [|t others IH]; [done|].
  rewrite fmap_cons. cbn [foldl]. by rewrite merge_error_again.
Qed.

(** X14. When every block failed, the merged document is the fallback
    document of the first block and its index is empty. *)
Theorem all_blocks_failed (raw_output : string) (others : list string) :
  merge_dicts (error_document <$> raw_output :: others)
  = error_items raw_output
  ∧ flatten_json
      (JDict (merge_dicts (error_document <$> raw_output :: others)))
    = Some ∅.
Proof.
  assert (merge_dicts (error_document <$> raw_output :: others)
          = error_items raw_output) as ->.
  { unfold merge_dicts. rewrite fmap_cons. cbn [foldl].
    apply merge_errors_fold. }
  split; [done|]. apply walk_error_items.
Qed.

Lemma first_assigned_NoDup key v (log : list (string * string)) :
  NoDup log.*1 → (key, v) ∈ log → first_assigned key log = Some v.
Proof.
  induction log as [|[k x] log IH]; [by intros _ ?%elem_of_nil|].
  cbn [fmap list_fmap fst first_assigned].
  intros [Hk Hnd]%NoDup_cons [[= -> ->]|Hin]%elem_of_cons.
  - by rewrite bool_decide_eq_true_2.
  - case_bool_decide as Heq; [|by apply IH]. subst k. exfalso.
    apply Hk. apply list_elem_of_fmap. by exists (key, v).
Qed.

(** X15. When no two assignments of the walk go to the same key, every
    leaf is found again: the index holds under each key assigned the text
    assigned to it. *)
Theorem flatten_keeps_every_leaf
    (doc : json) (log : list (string * string)) (key v : string) :
  assignments [] doc = Some log →
  NoDup log.*1 →
  (key, v) ∈ log →
  ∃ flat, flatten_json doc = Some flat ∧ flat !! key = Some v.
Proof.
  intros Hlog Hnd Hin. rewrite flatten_json_replay, Hlog.
  eexists. split; [done|]. rewrite replay_lookup.
  unfold last_assigned. rewrite (first_assigned_NoDup key v).
  - done.
  - by rewrite fmap_reverse, reverse_Permutation.
  - by apply elem_of_reverse.
Qed.

Lemma flatten_keeps_every_leaf_witness :
  ∃ flat,
    flatten_json
      (JDict [("SUBJECT", JDict [("State", JLeaf "WI"); ("Pool", JLeaf (VBool true))])])
    = Some flat
    ∧ flat !! "SUBJECT.POOL" = Some "True".
Proof.
  apply (flatten_keeps_every_leaf
           (JDict [("SUBJECT",
                    JDict [("State", JLeaf "WI"); ("Pool", JLeaf (VBool true))])])
           [ ("SUBJECT.STATE", "WI"); ("SUBJECT.POOL", "True");
             ("POOL", "True") ]).
  - vm_compute. reflexivity.
  - apply (bool_decide_unpack _). vm_compute. exact I.
  - apply elem_of_cons. right. apply elem_of_cons. by left.
Defined.

Lemma parse_pages_input_blocks_witness :
  StronglySorted Z.lt [2; 3; 4; 8]%Z
  ∧ NoDup [2; 3; 4; 8]%Z
  ∧ (split_into_blocks [2; 3; 4; 8]%Z).1.1
      ++ (split_into_blocks [2; 3; 4; 8]%Z).1.2
      ++ (split_into_blocks [2; 3; 4; 8]%Z).2 = [2; 3; 4; 8]%Z.
Proof.
  apply (parse_pages_input_blocks " 8, 2-4  3 ,,").
  vm_compute. reflexivity.
Defined.
